(** * The text-box image pipeline of koishi-plugin-manosaba-text-box

    A shallow embedding of [src/utils/core.ts]: text layout and vector
    document generation, the adaptive font-size search, the raster
    pipeline with its native handles, and the two process-wide
    initialisation gates; and of the command and the service that call
    it.

    Conventions.
    - A JavaScript [number] is modelled by [jsnum]: the three special
      values and exact rationals for the finite ones, [-0] being
      identified with [0].  Rounding enters where it decides what the
      code does: the height test of the font-size search is evaluated
      in binary64.
    - A JavaScript string is its sequence of UTF-16 code units, because
      [.length] counts code units while [for (const char of text)] walks
      code points.
    - Identifiers, file names and error messages are ordinary [string]s. *)

From Stdlib Require Import ZArith QArith Qround List Bool Lia String.
From Stdlib Require Import Floats Uint63.
From stdpp Require Import gmap strings list.
From Equations Require Import Equations.
Import ListNotations.
Open Scope Z_scope.

(** ** JavaScript numbers *)

Inductive jsnum : Type :=
  | NaN
  | NegInf
  | Fin (q : Q)
  | PosInf.

Definition num (z : Z) : jsnum := Fin (inject_Z z).

(** The infinity carrying the sign of [c], a comparison against zero;
    [positive] tells whether the other factor is positive. *)
Definition signed_inf (positive : bool) (c : comparison) : jsnum :=
  match c with
  | Eq => NaN
  | Gt => if positive then PosInf else NegInf
  | Lt => if positive then NegInf else PosInf
  end.

Definition js_add (a b : jsnum) : jsnum :=
  match a, b with
  | NaN, _ | _, NaN => NaN
  | PosInf, NegInf | NegInf, PosInf => NaN
  | PosInf, _ | _, PosInf => PosInf
  | NegInf, _ | _, NegInf => NegInf
  | Fin p, Fin q => Fin (Qred (p + q))
  end.

Definition js_mul (a b : jsnum) : jsnum :=
  match a, b with
  | NaN, _ | _, NaN => NaN
  | Fin p, Fin q => Fin (Qred (p * q))
  | PosInf, Fin q | Fin q, PosInf => signed_inf true (q ?= 0)%Q
  | NegInf, Fin q | Fin q, NegInf => signed_inf false (q ?= 0)%Q
  | PosInf, PosInf | NegInf, NegInf => PosInf
  | PosInf, NegInf | NegInf, PosInf => NegInf
  end.

Definition js_div (a b : jsnum) : jsnum :=
  match a, b with
  | NaN, _ | _, NaN => NaN
  | Fin p, Fin q =>
      if Qeq_bool q 0 then signed_inf true (p ?= 0)%Q else Fin (Qred (p / q))
  | Fin _, PosInf | Fin _, NegInf => Fin 0
  | PosInf, Fin q => match (q ?= 0)%Q with Lt => NegInf | _ => PosInf end
  | NegInf, Fin q => match (q ?= 0)%Q with Lt => PosInf | _ => NegInf end
  | _, _ => NaN
  end.

(** [Math.floor] and [Math.ceil]. *)
Definition js_floor (a : jsnum) : jsnum :=
  match a with
  | Fin q => num (Qfloor q)
  | other => other
  end.

Definition js_ceil (a : jsnum) : jsnum :=
  match a with
  | Fin q => num (Qceiling q)
  | other => other
  end.

(** [a <= b]; any comparison with [NaN] is false. *)
Definition js_le (a b : jsnum) : bool :=
  match a, b with
  | NaN, _ | _, NaN => false
  | NegInf, _ => true
  | _, PosInf => true
  | Fin p, Fin q => Qle_bool p q
  | _, _ => false
  end.

(** [a >= b]. *)
Definition js_ge (a b : jsnum) : bool := js_le b a.

(** [Math.max] of two values, then of an argument list: with no argument
    the result is [-Infinity]. *)
Definition js_max2 (a b : jsnum) : jsnum :=
  match a, b with
  | NaN, _ | _, NaN => NaN
  | _, _ => if js_le a b then b else a
  end.

Definition Math_max (args : list jsnum) : jsnum :=
  fold_left js_max2 args NegInf.

(** ** JavaScript strings *)

Definition jsstring : Type := list Z.

Definition is_high_surrogate (u : Z) : bool := (55296 <=? u) && (u <=? 56319).
Definition is_low_surrogate (u : Z) : bool := (56320 <=? u) && (u <=? 57343).

(** The string iterator behind [for (const char of text)]: a high
    surrogate directly followed by a low surrogate is one character of two
    code units, every other code unit is a character of its own. *)
Fixpoint string_iterator (s : jsstring) : list jsstring :=
  match s with
  | [] => []
  | u :: rest =>
      match rest with
      | v :: rest' =>
          if is_high_surrogate u && is_low_surrogate v
          then [u; v] :: string_iterator rest'
          else [u] :: string_iterator rest
      | [] => [[u]]
      end
  end.

(** [s.length], as a number. *)
Definition js_length {A : Type} (s : list A) : jsnum := num (Z.of_nat (length s)).

(** [if (s)]: the empty string is the only falsy string. *)
Definition truthy_string {A : Type} (s : list A) : bool :=
  match s with [] => false | _ => true end.

(** ** Line wrapping (generateTextSvg, first half) *)

Record WrapState : Type := mkWrap {
  lines : list jsstring;
  currentLine : jsstring
}.

(** One turn of the [for (const char of text)] loop. *)
Definition wrap_step (maxCharsPerLine : jsnum) (st : WrapState) (char : jsstring)
  : WrapState :=
  if js_ge (js_length (currentLine st)) maxCharsPerLine
  then mkWrap (lines st ++ [currentLine st]) char
  else mkWrap (lines st) (currentLine st ++ char).

(** The loop, followed by [if (currentLine) lines.push(currentLine)]. *)
Definition wrap_lines (maxCharsPerLine : jsnum) (text : jsstring) : list jsstring :=
  let st := fold_left (wrap_step maxCharsPerLine) (string_iterator text) (mkWrap [] []) in
  if truthy_string (currentLine st) then lines st ++ [currentLine st] else lines st.

(** ** Vector documents *)

(** The value of a [fill] attribute: a literal colour string, or the
    template [rgb(${font_color.join(',')})]. *)
Inductive paint : Type :=
  | PaintLiteral (colour : string)
  | PaintRgb (channels : list Z).

(** One [<text>] element; [fill_opacity] is [None] when the attribute is
    not written. *)
Record TextElement : Type := mkText {
  attr_x : Z;
  attr_y : jsnum;
  attr_font_size : Z;
  attr_fill : paint;
  attr_fill_opacity : option string;
  attr_font_family : string;
  content : jsstring
}.

(** The [<svg>] element: declared size and the children in document
    order, which is the paint order. *)
Record SvgDocument : Type := mkSvg {
  svgWidth : jsnum;
  svgHeight : jsnum;
  textElements : list TextElement
}.

Section VectorDocuments.

(** [encodeXML] of the [entities] package. *)
Variable encodeXML : jsstring -> jsstring.

(** The two elements emitted for the line at [index]. *)
Definition line_elements (fontSize : Z) (lineHeight : jsnum) (color : string)
    (index : nat) (line : jsstring) : list TextElement :=
  let y := js_add (num fontSize) (js_mul (num (Z.of_nat index)) lineHeight) in
  let escapedLine := encodeXML line in
  [ mkText 2 (js_add y (num 2)) fontSize (PaintLiteral "#000000") (Some "0.5"%string)
      "CustomFont" escapedLine;
    mkText 0 y fontSize (PaintLiteral color) None "CustomFont" escapedLine ].

Definition generateTextSvg (text : jsstring) (width fontSize : Z) (color : string)
  : SvgDocument :=
  let maxCharsPerLine := js_floor (js_div (num width) (num fontSize)) in
  let lines := wrap_lines maxCharsPerLine text in
  let lineHeight := js_mul (num fontSize) (Fin 1.2) in
  let maxLineLength := Math_max (map js_length lines) in
  let svgWidth := js_add (js_mul maxLineLength (num fontSize)) (num 4) in
  let svgHeight :=
    js_add (js_mul (js_length lines) lineHeight) (js_mul (num fontSize) (Fin 0.3)) in
  mkSvg svgWidth svgHeight (concat (imap (line_elements fontSize lineHeight color) lines)).

End VectorDocuments.

(** ** The adaptive font-size search (drawUserText) *)

(** [svgHeight] of one candidate size in exact arithmetic, the value that
    the engine's rounded height approximates. *)
Definition estimated_height (textLength boxWidth testFontSize : Z) : jsnum :=
  let maxCharsPerLine := js_floor (js_div (num boxWidth) (num testFontSize)) in
  let lineCount := js_ceil (js_div (num textLength) maxCharsPerLine) in
  let lineHeight := js_mul (num testFontSize) (Fin 1.2) in
  js_add (js_mul lineCount lineHeight) (js_mul (num testFontSize) (Fin 0.3)).

(** *** The height test in binary64

    The loop compares the rounded height with the height of the box, and
    where the exact height is the height of the box the rounding decides.
    The lengths and sizes are integers below 2^53 in magnitude, which
    binary64 holds exactly; for them the quotients under [Math.floor] and
    [Math.ceil] round to the integer quotients, and the two products and
    the sum are rounded. *)

Definition binary64_of_Z (z : Z) : float :=
  if z <? 0 then PrimFloat.opp (PrimFloat.of_uint63 (Uint63.of_Z (- z)))
  else PrimFloat.of_uint63 (Uint63.of_Z z).

(** [lineCount * lineHeight + fontSize * 0.3] with
    [lineHeight = fontSize * 1.2]. *)
Definition svgHeight_binary64 (lineCount fontSize : Z) : float :=
  let lineHeight := PrimFloat.mul (binary64_of_Z fontSize) 0x1.3333333333333p+0%float in
  PrimFloat.add (PrimFloat.mul (binary64_of_Z lineCount) lineHeight)
    (PrimFloat.mul (binary64_of_Z fontSize) 0x1.3333333333333p-2%float).

(** [svgHeight] as the loop computes it, for a quotient
    [maxCharsPerLine] that is not zero. *)
Definition estimated_height_binary64 (textLength boxWidth testFontSize : Z) : float :=
  let maxCharsPerLine := boxWidth / testFontSize in
  let lineCount := - ((- textLength) / maxCharsPerLine) in
  svgHeight_binary64 lineCount testFontSize.

Definition fits_binary64 (textLength boxWidth boxHeight testFontSize : Z) : bool :=
  PrimFloat.leb (estimated_height_binary64 textLength boxWidth testFontSize)
    (binary64_of_Z boxHeight).

(** The test [svgHeight <= boxHeight] of the loop, whose candidates are
    24 or more.  When the box is narrower than the candidate,
    [maxCharsPerLine] is 0, [text.length / 0] is [Infinity] or [NaN], and
    so is the height: the test fails. *)
Definition fits (textLength boxWidth boxHeight testFontSize : Z) : bool :=
  if boxWidth / testFontSize =? 0 then false
  else fits_binary64 textLength boxWidth boxHeight testFontSize.

(** [for (let testFontSize = fontSize; testFontSize >= 24; testFontSize -= 6)],
    returning the value of [fontSize] when the loop is left. *)
Equations? font_size_loop (textLength boxWidth boxHeight fontSize testFontSize : Z) : Z
  by wf (Z.to_nat (testFontSize - 23)) lt :=
  font_size_loop textLength boxWidth boxHeight fontSize testFontSize
    with Z_le_gt_dec 24 testFontSize => {
    | left _ :=
        if fits textLength boxWidth boxHeight testFontSize
        then testFontSize
        else font_size_loop textLength boxWidth boxHeight fontSize (testFontSize - 6);
    | right _ := fontSize }.
Proof. lia. Qed.

(** The size handed to [generateTextSvg]. *)
Definition adjusted_font_size (text : jsstring) (boxWidth boxHeight initialFontSize : Z) : Z :=
  font_size_loop (Z.of_nat (length text)) boxWidth boxHeight initialFontSize initialFontSize.


(** ** Errors and promises *)

(** A thrown value: whether it is an [Error] instance, and its message. *)
Record JsError : Type := mkError {
  instanceof_Error : bool;
  message : string
}.

Definition Error (msg : string) : JsError := mkError true msg.

(** [haystack.includes(needle)]. *)
Fixpoint includes (haystack needle : string) : bool :=
  String.prefix needle haystack ||
  match haystack with
  | EmptyString => false
  | String _ rest => includes rest needle
  end.

(** [err instanceof Error && err.message.includes('Already initialized')]. *)
Definition already_initialized (err : JsError) : bool :=
  instanceof_Error err && includes (message err) "Already initialized".

(** The completion of a call: a value, or a thrown error. *)
Inductive res (A : Type) : Type :=
  | Ok (a : A)
  | Throw (err : JsError).
Arguments Ok {A} a.
Arguments Throw {A} err.

(** A promise of an asynchronous computation that is suspended on one
    native operation: [Suspended outcome] until the native operation
    completes with [outcome] ([None] for success), then settled. *)
Inductive promise : Type :=
  | Suspended (outcome : option JsError)
  | Fulfilled
  | Rejected (err : JsError).

(** How far the synchronous prefix of a gate call gets. *)
Inductive entry : Type :=
  | Return
  | Await (p : nat).

(** ** The renderer gate (ensureResvgInitialized) *)

(** What the backing system does in one initialisation attempt:
    [require.resolve] or [fs.readFileSync] throws before the first
    [await], or [initWasm] is called and its promise settles later. *)
Inductive Backing : Type :=
  | SyncThrow (err : JsError)
  | InitWasm (outcome : option JsError).

(** [globalState], the promises created so far by the async arrow (a
    promise is named by its position) and the number of [initWasm] calls. *)
Record ResvgGlobal : Type := mkResvg {
  initialized : bool;
  initializing : option nat;
  arrow_promises : list promise;
  initWasm_calls : nat
}.

Definition resvg_fresh : ResvgGlobal := mkResvg false None [] 0.

Section ResvgGate.

(** The behaviour of the backing system, by attempt number. *)
Variable backing : nat -> Backing.

(** The [catch (err)] clause of the arrow: the state of the arrow's
    promise when the clause is left, and the globals. *)
Definition catch_clause (err : JsError) (g : ResvgGlobal) : promise * ResvgGlobal :=
  if already_initialized err
  then (Fulfilled,
        mkResvg true (initializing g) (arrow_promises g) (initWasm_calls g))
  else (Rejected err,
        mkResvg (initialized g) None (arrow_promises g) (initWasm_calls g)).

(** The statements after [await initWasm(wasmBuffer)]. *)
Definition after_initWasm (g : ResvgGlobal) : promise * ResvgGlobal :=
  (Fulfilled, mkResvg true (initializing g) (arrow_promises g) (initWasm_calls g)).

Definition push_promise (pr : promise) (g : ResvgGlobal) : ResvgGlobal :=
  mkResvg (initialized g) (initializing g) (arrow_promises g ++ [pr]) (initWasm_calls g).

Definition store_promise (p : nat) (pr : promise) (g : ResvgGlobal) : ResvgGlobal :=
  mkResvg (initialized g) (initializing g) (<[p := pr]> (arrow_promises g))
    (initWasm_calls g).

(** The call [(async () => { ... })()]: the body runs up to its first
    [await], or to its end when it throws before, and the call returns
    the arrow's promise. *)
Definition arrow_call (g : ResvgGlobal) : nat * ResvgGlobal :=
  let p := length (arrow_promises g) in
  match backing p with
  | SyncThrow err =>
      let '(pr, g1) := catch_clause err g in (p, push_promise pr g1)
  | InitWasm outcome =>
      (p, mkResvg (initialized g) (initializing g)
            (arrow_promises g ++ [Suspended outcome]) (S (initWasm_calls g)))
  end.

(** The synchronous prefix of [ensureResvgInitialized]: the assignment
    to [globalState.initializing] takes place once the arrow call has
    returned. *)
Definition resvg_enter (g : ResvgGlobal) : entry * ResvgGlobal :=
  if initialized g then (Return, g)
  else match initializing g with
       | Some p => (Await p, g)
       | None =>
           let '(p, g1) := arrow_call g in
           (Await p,
            mkResvg (initialized g1) (Some p) (arrow_promises g1) (initWasm_calls g1))
       end.

(** [initWasm] completes and the arrow runs to its end. *)
Definition resvg_settle (p : nat) (g : ResvgGlobal) : option ResvgGlobal :=
  match arrow_promises g !! p with
  | Some (Suspended None) =>
      let '(pr, g1) := after_initWasm g in Some (store_promise p pr g1)
  | Some (Suspended (Some err)) =>
      let '(pr, g1) := catch_clause err g in Some (store_promise p pr g1)
  | _ => None
  end.

(** A caller suspended at [await globalState.initializing] goes on. *)
Definition resvg_resume (p : nat) (g : ResvgGlobal) : option (res unit * ResvgGlobal) :=
  match arrow_promises g !! p with
  | Some Fulfilled => Some (Ok tt, g)
  | Some (Rejected err) => Some (Throw err, g)
  | _ => None
  end.

(** One call run to completion with no other caller in between. *)
Definition ensureResvgInitialized (g : ResvgGlobal) : res unit * ResvgGlobal :=
  match resvg_enter g with
  | (Return, g1) => (Ok tt, g1)
  | (Await p, g1) =>
      let g2 := default g1 (resvg_settle p g1) in
      default (Throw (Error "dangling promise"), g2) (resvg_resume p g2)
  end.

End ResvgGate.

(** ** The raster-engine gate (vipsPromise, getVips) *)

(** [vipsPromise] is created when the module is loaded, by the only call
    of [Vips(...)]; [vipsInstance] is the cache filled by [getVips]. *)
Record VipsGlobal : Type := mkVips {
  vipsPromise : promise;
  vipsInstance : bool;
  Vips_calls : nat
}.

(** The module just loaded: [startup] is how the engine start-up ends. *)
Definition vips_loaded (startup : option JsError) : VipsGlobal :=
  mkVips (Suspended startup) false 1.

Definition vips_enter (g : VipsGlobal) : entry * VipsGlobal :=
  if vipsInstance g then (Return, g) else (Await 0%nat, g).

(** The start-up ends; on success the [then] callback configures the
    engine and the promise is fulfilled with it. *)
Definition vips_settle (p : nat) (g : VipsGlobal) : option VipsGlobal :=
  match p, vipsPromise g with
  | O, Suspended None => Some (mkVips Fulfilled (vipsInstance g) (Vips_calls g))
  | O, Suspended (Some err) => Some (mkVips (Rejected err) (vipsInstance g) (Vips_calls g))
  | _, _ => None
  end.

(** [vipsInstance = await vipsPromise] goes on. *)
Definition vips_resume (p : nat) (g : VipsGlobal) : option (res unit * VipsGlobal) :=
  match p, vipsPromise g with
  | O, Fulfilled => Some (Ok tt, mkVips Fulfilled true (Vips_calls g))
  | O, Rejected err => Some (Throw err, g)
  | _, _ => None
  end.

Definition getVips (g : VipsGlobal) : res unit * VipsGlobal :=
  match vips_enter g with
  | (Return, g1) => (Ok tt, g1)
  | (Await p, g1) =>
      let g2 := default g1 (vips_settle p g1) in
      default (Throw (Error "dangling promise"), g2) (vips_resume p g2)
  end.

(** ** Concurrent callers of a gate *)

(** A caller: not arrived yet, suspended on a promise, or finished. *)
Inductive task : Type :=
  | NotCalled
  | Awaiting (p : nat)
  | Returned
  | Threw (err : JsError).

Definition task_of_entry (e : entry) : task :=
  match e with Return => Returned | Await p => Awaiting p end.

Definition task_of_res (r : res unit) : task :=
  match r with Ok _ => Returned | Throw err => Threw err end.

Section Scheduler.

Context {G : Type}.
Variable enter : G -> entry * G.
Variable settle : nat -> G -> option G.
Variable resume : nat -> G -> option (res unit * G).

(** The event loop runs one synchronous segment at a time, in any
    order: a caller arrives, a native operation completes, or a
    suspended caller whose promise is settled goes on. *)
Inductive step : G * list task -> G * list task -> Prop :=
  | step_enter i g ts e g' :
      ts !! i = Some NotCalled ->
      enter g = (e, g') ->
      step (g, ts) (g', <[i := task_of_entry e]> ts)
  | step_settle p g ts g' :
      settle p g = Some g' ->
      step (g, ts) (g', ts)
  | step_resume i p g ts r g' :
      ts !! i = Some (Awaiting p) ->
      resume p g = Some (r, g') ->
      step (g, ts) (g', <[i := task_of_res r]> ts).

(** Executions of a given length. *)
Inductive steps : nat -> G * list task -> G * list task -> Prop :=
  | steps_O s : steps 0 s s
  | steps_S n s1 s2 s3 : steps n s1 s2 -> step s2 s3 -> steps (S n) s1 s3.

Definition quiescent (s : G * list task) : Prop := forall s', ~ step s s'.

End Scheduler.

(** ** Raster images, handles and the host *)

(** What the pipeline reads from an image.  [bands] counts the colour
    bands and the alpha band when there is one. *)
Record Image : Type := mkImage {
  width : Z;
  height : Z;
  colour_bands : Z;
  hasAlpha : bool
}.

Definition bands (img : Image) : Z :=
  colour_bands img + (if hasAlpha img then 1 else 0).

(** A native image object: its identity and what it holds. *)
Record Handle : Type := mkHandle {
  hid : nat;
  pixels : Image
}.

Definition Buffer : Type := list Z.

(** The files the pipeline opens; an index is [None] when the template
    string is built from [undefined]. *)
Inductive path : Type :=
  | BackgroundFile (index : option Z)
  | CharacterFile (character : string) (index : option Z)
  | FontFile (fontName : string).

(** The log of what happens to native images: creation and disposal of a
    handle, and the operands of every [composite2] call. *)
Inductive Event : Type :=
  | Acquire (h : nat)
  | Release (h : nat)
  | Composite (base overlay : Image).

Record CharacterMeta : Type := mkMeta {
  full_name : string;
  emotion_count : Z;
  font : string
}.

Record TextConfig : Type := mkTextConfig {
  text : jsstring;
  position : Z * Z;
  font_color : list Z;
  font_size : Z
}.

(** The collaborators of the pipeline: everything that is not code of
    [core.ts] and can fail or answer in more than one way. *)
Record Host : Type := mkHost {
  encodeXML : jsstring -> jsstring;
  shuffleArray : list Z -> list Z;
  readdirSync : res (list string);
  readFileSync : path -> res Buffer;
  resvg_backing : nat -> Backing;
  Resvg_render : SvgDocument -> Buffer -> res Buffer;
  newFromFile : path -> res Image;
  newFromBuffer : Buffer -> res Image;
  bandjoin_fault : Image -> option JsError;
  composite2 : Image -> Image -> Z -> Z -> res Image;
  writeToBuffer : Image -> string -> res Buffer;
  dispose_fault : nat -> option JsError
}.

(** The process-wide state and the log. *)
Record World : Type := mkWorld {
  globalState : ResvgGlobal;
  vips : VipsGlobal;
  next_handle : nat;
  events : list Event
}.

(** ** Property reads on plain objects *)

(** The members every plain object inherits from [Object.prototype]. *)
Definition Object_prototype : list string :=
  [ "constructor"; "__defineGetter__"; "__defineSetter__"; "hasOwnProperty";
    "__lookupGetter__"; "__lookupSetter__"; "isPrototypeOf";
    "propertyIsEnumerable"; "toString"; "valueOf"; "__proto__";
    "toLocaleString" ]%string.

Inductive jsprop (V : Type) : Type :=
  | Undefined
  | Own (v : V)
  | Inherited (name : string).
Arguments Undefined {V}.
Arguments Own {V} v.
Arguments Inherited {V} name.

(** [o[key]] for an object [o] built from a YAML mapping or [{}]. *)
Definition js_get {V : Type} (o : gmap string V) (key : string) : jsprop V :=
  match o !! key with
  | Some v => Own v
  | None => if bool_decide (key ∈ Object_prototype) then Inherited key else Undefined
  end.

(** ** Computations with local variables, the world and exceptions *)

Definition M (L A : Type) : Type := L -> World -> res A * L * World.

Definition ret {L A : Type} (a : A) : M L A := fun l w => (Ok a, l, w).

Definition throw {L A : Type} (err : JsError) : M L A := fun l w => (Throw err, l, w).

Definition bind {L A B : Type} (m : M L A) (k : A -> M L B) : M L B :=
  fun l w =>
    match m l w with
    | (Ok a, l1, w1) => k a l1 w1
    | (Throw err, l1, w1) => (Throw err, l1, w1)
    end.

Declare Scope js_scope.
Delimit Scope js_scope with js.
Notation "'let*' x ':=' m 'in' k" := (bind m (fun x => k))
  (at level 10, x binder, m at level 200, k at level 200) : js_scope.
Notation "m ';;;' k" := (bind m (fun _ => k))
  (at level 100, right associativity) : js_scope.
Open Scope js_scope.

(** [try { body } catch (err) { handler }]. *)
Definition try_catch {L A : Type} (body : M L A) (handler : JsError -> M L A) : M L A :=
  fun l w =>
    match body l w with
    | (Throw err, l1, w1) => handler err l1 w1
    | done => done
    end.

(** [try { body } finally { cleanup }]: the completion of [body] stands
    unless [cleanup] throws. *)
Definition try_finally {L A : Type} (body : M L A) (cleanup : M L unit) : M L A :=
  fun l w =>
    match body l w with
    | (r, l1, w1) =>
        match cleanup l1 w1 with
        | (Ok _, l2, w2) => (r, l2, w2)
        | (Throw err, l2, w2) => (Throw err, l2, w2)
        end
    end.

Definition of_res {L A : Type} (r : res A) : M L A := fun l w => (r, l, w).

Definition read {L X : Type} (var : L -> X) : M L X := fun l w => (Ok (var l), l, w).

Definition assign {L : Type} (update : L -> L) : M L unit := fun l w => (Ok tt, update l, w).

(** A call of a function with locals of its own. *)
Definition call {L L' A : Type} (locals : L') (body : M L' A) : M L A :=
  fun l w => match body locals w with (r, _, w1) => (r, l, w1) end.

Definition log {L : Type} (e : Event) : M L unit :=
  fun l w => (Ok tt, l, mkWorld (globalState w) (vips w) (next_handle w) (events w ++ [e])).

(** A new native image object. *)
Definition alloc {L : Type} (img : Image) : M L Handle :=
  fun l w =>
    (Ok (mkHandle (next_handle w) img), l,
     mkWorld (globalState w) (vips w) (S (next_handle w))
       (events w ++ [Acquire (next_handle w)])).

(** A method call on a variable that may hold [null]. *)
Definition deref {L : Type} (v : option Handle) : M L Handle :=
  match v with
  | Some h => ret h
  | None => throw (Error "Cannot read properties of null")
  end.

Fixpoint for_of {L X : Type} (xs : list X) (body : X -> M L unit) : M L unit :=
  match xs with
  | [] => ret tt
  | x :: rest => body x ;;; for_of rest body
  end.

(** The local variables of the two functions that own handles. *)
Module Base.
Record Locals : Type := mk {
  bgImage : option Handle;
  charImage : option Handle;
  result : option Handle
}.
Definition init : Locals := mk None None None.
Definition set_bgImage (h : Handle) (l : Locals) := mk (Some h) (charImage l) (result l).
Definition set_charImage (h : Handle) (l : Locals) := mk (bgImage l) (Some h) (result l).
Definition set_result (h : Handle) (l : Locals) := mk (bgImage l) (charImage l) (Some h).
End Base.

Module Draw.
Record Locals : Type := mk {
  image : option Handle;
  textImage : option Handle;
  result : option Handle
}.
Definition init : Locals := mk None None None.
Definition set_image (h : Handle) (l : Locals) := mk (Some h) (textImage l) (result l).
Definition set_textImage (h : Handle) (l : Locals) := mk (image l) (Some h) (result l).
Definition set_result (h : Handle) (l : Locals) := mk (image l) (textImage l) (Some h).
End Draw.

Definition USER_TEXT_BOX_RECT : (Z * Z) * (Z * Z) := ((728, 355), (2339, 800)).
Definition USER_TEXT_FONT_SIZE : Z := 120.

(** ** The pipeline *)

Section Pipeline.

Variable host : Host.

(** The module variables filled by [initAssets]. *)
Variable charaMeta : gmap string CharacterMeta.
Variable textConfigs : gmap string (list TextConfig).

(** *** Calls into the host *)

Definition await_getVips {L : Type} : M L unit :=
  fun l w =>
    match getVips (vips w) with
    | (r, g) => (r, l, mkWorld (globalState w) g (next_handle w) (events w))
    end.

Definition await_ensureResvgInitialized {L : Type} : M L unit :=
  fun l w =>
    match ensureResvgInitialized (resvg_backing host) (globalState w) with
    | (r, g) => (r, l, mkWorld g (vips w) (next_handle w) (events w))
    end.

Definition vips_newFromFile {L : Type} (p : path) : M L Handle :=
  let* img := of_res (newFromFile host p) in alloc img.

Definition vips_newFromBuffer {L : Type} (b : Buffer) : M L Handle :=
  let* img := of_res (newFromBuffer host b) in alloc img.

(** Modelled from the spec: the engine is not part of the sources;
    widening appends one fully-opaque channel, which is the alpha
    channel of the new image. *)
Definition widened (img : Image) : Image :=
  mkImage (width img) (height img) (colour_bands img) true.

(** [h.bandjoin(255)]. *)
Definition vips_bandjoin {L : Type} (h : Handle) : M L Handle :=
  match bandjoin_fault host (pixels h) with
  | Some err => throw err
  | None => alloc (widened (pixels h))
  end.

(** [base.composite2(overlay, 'over', { x, y })]. *)
Definition vips_composite2 {L : Type} (base overlay : Handle) (x y : Z) : M L Handle :=
  log (Composite (pixels base) (pixels overlay)) ;;;
  let* img := of_res (composite2 host (pixels base) (pixels overlay) x y) in
  alloc img.

Definition vips_writeToBuffer {L : Type} (h : Handle) (suffix : string) : M L Buffer :=
  of_res (writeToBuffer host (pixels h) suffix).

(** [h[Symbol.dispose]()]. *)
Definition vips_dispose {L : Type} (h : Handle) : M L unit :=
  log (Release (hid h)) ;;;
  match dispose_fault host (hid h) with
  | Some err => throw err
  | None => ret tt
  end.

(** [try { h[Symbol.dispose]() } catch (_e) {}]. *)
Definition dispose_quietly {L : Type} (h : Handle) : M L unit :=
  try_catch (vips_dispose h) (fun _ => ret tt).

(** [if (v) { try { v[Symbol.dispose]() } catch (_e) {} }]. *)
Definition dispose_if_set {L : Type} (v : option Handle) : M L unit :=
  match v with
  | Some h => dispose_quietly h
  | None => ret tt
  end.

(** [new Resvg(svg, ...).render().asPng()]. *)
Definition resvg_render {L : Type} (svg : SvgDocument) (fontBuffer : Buffer) : M L Buffer :=
  of_res (Resvg_render host svg fontBuffer).

(** [charaMeta[character]?.font || 'font3.ttf']. *)
Definition fontName_of (character : string) : string :=
  match js_get charaMeta character with
  | Own meta => if String.eqb (font meta) "" then "font3.ttf" else font meta
  | _ => "font3.ttf"
  end.

(** *** Random defaults *)

Definition ends_with (f suffix : string) : bool :=
  let n := String.length f in
  let k := String.length suffix in
  (k <=? n)%nat && String.eqb (String.substring (n - k) k f) suffix.

(** [Array.from({ length: n }, (_, i) => i + 1)]. *)
Definition one_to (n : Z) : list Z := map (fun i => Z.of_nat i + 1) (seq 0 (Z.to_nat n)).

(** [shuffled[0]]. *)
Definition getRandomBackground {L : Type} : M L (option Z) :=
  let* files := of_res (readdirSync host) in
  let backgrounds := List.filter (fun f => String.prefix "c" f && ends_with f ".avif") files in
  let indices := one_to (Z.of_nat (length backgrounds)) in
  ret (head (shuffleArray host indices)).

Definition getRandomEmotion (character : string) : option Z :=
  match js_get charaMeta character with
  | Undefined => Some 1
  | Own meta => head (shuffleArray host (one_to (emotion_count meta)))
  | Inherited _ => head (shuffleArray host [])
  end.

(** *** generateBaseImage *)

(** The document of one name caption. *)
Definition name_svg (config : TextConfig) : SvgDocument :=
  let textLength := js_length (text config) in
  let svgWidth :=
    js_add (js_mul (js_mul (num (font_size config)) textLength) (Fin 1.2)) (num 20) in
  let svgHeight := js_add (js_mul (num (font_size config)) (Fin 1.5)) (num 10) in
  let baselineY := js_mul (num (font_size config)) (Fin 1.2) in
  let escapedText := encodeXML host (text config) in
  mkSvg svgWidth svgHeight
    [ mkText 2 (js_add baselineY (num 2)) (font_size config) (PaintLiteral "#000000")
        None "CustomFont" escapedText;
      mkText 0 baselineY (font_size config) (PaintRgb (font_color config))
        None "CustomFont" escapedText ].

(** The body of [for (const config of textConfigs[character])]. *)
Definition name_caption (fontBuffer : Buffer) (config : TextConfig) : M Base.Locals unit :=
  if truthy_string (text config) then
    let svg := name_svg config in
    let* namePngBuffer := resvg_render svg fontBuffer in
    let* nameImage := vips_newFromBuffer namePngBuffer in
    let* result := read Base.result in
    let* result := deref result in
    let* tempResult :=
      vips_composite2 result nameImage (fst (position config)) (snd (position config)) in
    dispose_quietly result ;;;
    assign (Base.set_result tempResult) ;;;
    dispose_quietly nameImage
  else ret tt.

Definition name_captions (character : string) : M Base.Locals unit :=
  match js_get textConfigs character with
  | Undefined => ret tt
  | Own configs =>
      await_ensureResvgInitialized ;;;
      let* fontBuffer := of_res (readFileSync host (FontFile (fontName_of character))) in
      for_of configs (name_caption fontBuffer)
  | Inherited _ =>
      await_ensureResvgInitialized ;;;
      let* fontBuffer := of_res (readFileSync host (FontFile (fontName_of character))) in
      throw (Error "textConfigs[character] is not iterable")
  end.

Definition generateBaseImage_try (character : string) (backgroundIndex emotionIndex : option Z)
  : M Base.Locals Buffer :=
  let* bgImage := vips_newFromFile (BackgroundFile backgroundIndex) in
  assign (Base.set_bgImage bgImage) ;;;
  let* charImage := vips_newFromFile (CharacterFile character emotionIndex) in
  assign (Base.set_charImage charImage) ;;;
  let* result := vips_composite2 bgImage charImage 0 134 in
  assign (Base.set_result result) ;;;
  name_captions character ;;;
  let* result := read Base.result in
  let* result := deref result in
  vips_writeToBuffer result ".avif".

Definition generateBaseImage_finally : M Base.Locals unit :=
  (let* result := read Base.result in dispose_if_set result) ;;;
  (let* charImage := read Base.charImage in dispose_if_set charImage) ;;;
  (let* bgImage := read Base.bgImage in dispose_if_set bgImage).

Definition generateBaseImage (character : string) (backgroundIndex emotionIndex : option Z)
  : M Base.Locals Buffer :=
  await_getVips ;;;
  try_finally (generateBaseImage_try character backgroundIndex emotionIndex)
    generateBaseImage_finally.

(** *** drawUserText *)

Definition drawUserText_try (baseImage : Buffer) (text : jsstring)
    (boxRect : (Z * Z) * (Z * Z)) (initialFontSize : Z) (fontPath : path)
  : M Draw.Locals Buffer :=
  await_ensureResvgInitialized ;;;
  let* image := vips_newFromBuffer baseImage in
  assign (Draw.set_image image) ;;;
  (if negb (hasAlpha (pixels image))
   then let* image := vips_bandjoin image in assign (Draw.set_image image)
   else ret tt) ;;;
  let '((x1, y1), (x2, y2)) := boxRect in
  let boxWidth := x2 - x1 in
  let boxHeight := y2 - y1 in
  let* fontBuffer := of_res (readFileSync host fontPath) in
  let fontSize := adjusted_font_size text boxWidth boxHeight initialFontSize in
  let svg := generateTextSvg (encodeXML host) text boxWidth fontSize "#FFFFFF" in
  let* pngBuffer := resvg_render svg fontBuffer in
  let* textImage := vips_newFromBuffer pngBuffer in
  assign (Draw.set_textImage textImage) ;;;
  (if negb (hasAlpha (pixels textImage))
   then let* textImage := vips_bandjoin textImage in assign (Draw.set_textImage textImage)
   else ret tt) ;;;
  let textX := x1 + 20 in
  let textY := y1 + 20 in
  let* image := read Draw.image in
  let* image := deref image in
  let* textImage := read Draw.textImage in
  let* textImage := deref textImage in
  let* result := vips_composite2 image textImage textX textY in
  assign (Draw.set_result result) ;;;
  vips_writeToBuffer result ".avif".

Definition drawUserText_finally : M Draw.Locals unit :=
  (let* result := read Draw.result in dispose_if_set result) ;;;
  (let* textImage := read Draw.textImage in dispose_if_set textImage) ;;;
  (let* image := read Draw.image in dispose_if_set image).

Definition drawUserText (baseImage : Buffer) (text : jsstring)
    (boxRect : (Z * Z) * (Z * Z)) (initialFontSize : Z) (fontPath : path)
  : M Draw.Locals Buffer :=
  await_getVips ;;;
  try_finally
    (try_catch (drawUserText_try baseImage text boxRect initialFontSize fontPath)
       (fun _ => ret baseImage))
    drawUserText_finally.

(** *** generateTextBoxImage *)

(** [backgroundIndex ?? getRandomBackground()]. *)
Definition background_or_random (backgroundIndex : option Z) : M unit (option Z) :=
  match backgroundIndex with
  | Some i => ret (Some i)
  | None => getRandomBackground
  end.

(** [emotionIndex ?? getRandomEmotion(character)]. *)
Definition emotion_or_random (character : string) (emotionIndex : option Z) : option Z :=
  match emotionIndex with
  | Some i => Some i
  | None => getRandomEmotion character
  end.

Definition generateTextBoxImage (character : string) (text : jsstring)
    (backgroundIndex emotionIndex : option Z) : M unit Buffer :=
  match js_get charaMeta character with
  | Undefined => throw (Error ("Unknown character: " ++ character))
  | _ =>
      let* bgIndex := background_or_random backgroundIndex in
      let emIndex := emotion_or_random character emotionIndex in
      let* baseImage := call Base.init (generateBaseImage character bgIndex emIndex) in
      let fontPath := FontFile (fontName_of character) in
      call Draw.init
        (drawUserText baseImage text USER_TEXT_BOX_RECT USER_TEXT_FONT_SIZE fontPath)
  end.

End Pipeline.

(** ** Reading the log *)

Definition event_eqb (a b : Event) : bool :=
  match a, b with
  | Acquire h, Acquire k => Nat.eqb h k
  | Release h, Release k => Nat.eqb h k
  | _, _ => false
  end.

(** How often handle [h] was created, and how often disposed of. *)
Definition acquired (h : nat) (log : list Event) : nat :=
  length (List.filter (fun e => event_eqb e (Acquire h)) log).

Definition released (h : nat) (log : list Event) : nat :=
  length (List.filter (fun e => event_eqb e (Release h)) log).

(** The operands of the [composite2] calls, in order. *)
Definition composites (log : list Event) : list (Image * Image) :=
  flat_map (fun e => match e with Composite b o => [(b, o)] | _ => [] end) log.

(** The world when the module has just been loaded. *)
Definition world_loaded (startup : option JsError) : World :=
  mkWorld resvg_fresh (vips_loaded startup) 0 [].

(** ** Sample data *)

Definition rgb_image : Image := mkImage 2560 1440 3 false.
Definition rgba_image : Image := mkImage 2560 1440 3 true.
Definition caption_image : Image := mkImage 1444 160 3 true.

Definition font_bytes : Buffer := [0].
Definition png_bytes : Buffer := [1].
Definition avif_bytes : Buffer := [2].
Definition base_bytes : Buffer := [3].

(** A host on which every operation succeeds: the assets of character
    "ema" exist, the rendered caption decodes to [caption_image] and every
    other buffer to [decoded]; [composite2] fails when [fragile] and the
    overlay is a rendered caption, and succeeds otherwise. *)
Definition sample_host (decoded : Image) (fragile : bool) : Host :=
  mkHost
    (fun s => s)
    (fun l => l)
    (Ok ["c1.avif"; "c2.avif"]%string)
    (fun _ => Ok font_bytes)
    (fun _ => InitWasm None)
    (fun _ _ => Ok png_bytes)
    (fun p =>
       match p with
       | BackgroundFile (Some _) => Ok rgb_image
       | CharacterFile "ema" (Some _) => Ok rgba_image
       | _ => Throw (Error "unable to open file for read")
       end)
    (fun b => if decide (b = png_bytes) then Ok caption_image else Ok decoded)
    (fun _ => None)
    (fun base overlay _ _ =>
       if fragile && (width overlay =? width caption_image)
       then Throw (Error "composite: unable to blend")
       else Ok (mkImage (width base) (height base) 3 true))
    (fun _ _ => Ok avif_bytes)
    (fun _ => None).

Definition sample_charaMeta : gmap string CharacterMeta :=
  {[ "ema"%string := mkMeta "Ema" 8 "font1.ttf" ]}.

Definition sample_textConfigs : gmap string (list TextConfig) :=
  {[ "ema"%string := [mkTextConfig [26716] (759, 63) [253; 145; 175] 186] ]}.

(** The host above with all images decoded to [rgba_image], and with a
    renderer that takes one document only, the one without text elements
    whose declared width is [-Infinity], and refuses every other. *)
Definition empty_document_host : Host :=
  let host := sample_host rgba_image false in
  mkHost
    (encodeXML host) (shuffleArray host) (readdirSync host) (readFileSync host)
    (resvg_backing host)
    (fun svg _ =>
       match svgWidth svg, textElements svg with
       | NegInf, [] => Ok png_bytes
       | _, _ => Throw (Error "not the document of the empty text")
       end)
    (newFromFile host) (newFromBuffer host) (bandjoin_fault host) (composite2 host)
    (writeToBuffer host) (dispose_fault host).

(** A world in which the raster engine has been handed out before. *)
Definition world_ready : World :=
  mkWorld resvg_fresh (mkVips Fulfilled true 1) 0 [].

(** ** Auxiliary definitions for the proofs *)

(** The wrapping loop as a recursive function of what is left to read and
    of the current line; it returns the lines pushed from here on. *)
Fixpoint wrap_from (maxCharsPerLine : jsnum) (chars : list jsstring) (cur : jsstring)
  : list jsstring :=
  match chars with
  | [] => if truthy_string cur then [cur] else []
  | c :: rest =>
      if js_ge (js_length cur) maxCharsPerLine
      then cur :: wrap_from maxCharsPerLine rest c
      else wrap_from maxCharsPerLine rest (cur ++ c)
  end.

(** A list of characters that one more character may still join at every
    proper prefix: the length test of the loop fails there. *)
Definition appendable (maxCharsPerLine : jsnum) (ds : list jsstring) : Prop :=
  forall j : nat, (j < length ds)%nat ->
    js_ge (js_length (concat (take j ds))) maxCharsPerLine = false.

(** A list of characters that the string iterator gives back. *)
Definition iterated (ds : list jsstring) : Prop :=
  string_iterator (concat ds) = ds.

(** The baseline of the line at [index] in a wrapped document. *)
Definition baseline (fontSize : Z) (index : nat) : jsnum :=
  js_add (num fontSize) (js_mul (num (Z.of_nat index)) (js_mul (num fontSize) (Fin 1.2))).

(** Two elements that draw one text twice: a black copy moved by (2, 2),
    with the attribute [fill-opacity="0.5"] when [translucent] and without
    the attribute otherwise, and the copy in [colour] at the place itself. *)
Definition drop_shadow_pair (translucent : bool) (colour : paint)
    (shadow fill : TextElement) : Prop :=
  attr_x shadow = 2 /\ attr_x fill = 0 /\
  attr_y shadow = js_add (attr_y fill) (num 2) /\
  attr_fill shadow = PaintLiteral "#000000" /\
  attr_fill_opacity shadow = (if translucent then Some "0.5"%string else None) /\
  attr_fill fill = colour /\
  attr_fill_opacity fill = None /\
  content shadow = content fill.

(** What is left to do for a caller, and for a list of callers. *)
Definition task_weight (t : task) : nat :=
  match t with
  | NotCalled => 3
  | Awaiting _ => 1
  | Returned | Threw _ => 0
  end.

Definition tasks_weight (ts : list task) : nat := sum_list (map task_weight ts).

Definition suspended (pr : promise) : nat :=
  match pr with Suspended _ => 1 | _ => 0 end.




Definition vips_measure (s : VipsGlobal * list task) : nat :=
  tasks_weight (snd s) + suspended (vipsPromise (fst s)).

(** A computation that leaves the raster-engine gate as it found it. *)
Definition keeps_vips {L A : Type} (m : M L A) : Prop :=
  forall (l : L) (w : World), vips (snd (m l w)) = vips w.




(** A text without high surrogates: every character is one code unit. *)
Definition bmp_only (s : jsstring) : bool :=
  forallb (fun u => negb (is_high_surrogate u)) s.


(** How many of the variables [result], [charImage] and [bgImage] of
    [generateBaseImage] hold handle [h]. *)
Definition held_by (v : option Handle) (h : nat) : nat :=
  match v with
  | Some x => if Nat.eqb (hid x) h then 1 else 0
  | None => 0
  end.

Definition holds (l : Base.Locals) (h : nat) : nat :=
  (held_by (Base.result l) h + held_by (Base.charImage l) h + held_by (Base.bgImage l) h)%nat.

(** The handles in the log [delta] of a run that has reached the locals
    [l] and the world [w]: no handle is created twice, none that is still
    to be created occurs, and the handles disposed of are created ones
    that no variable holds any more. *)
Definition tracked (l : Base.Locals) (w : World) (delta : list Event) : Prop :=
  forall h : nat,
    (released h delta + holds l h <= acquired h delta)%nat /\
    (acquired h delta <= 1)%nat /\
    (next_handle w <= h -> acquired h delta = 0)%nat.

(** Moreover every created handle is held by a variable or disposed of. *)
Definition accounted (l : Base.Locals) (w : World) (delta : list Event) : Prop :=
  forall h : nat,
    (released h delta + holds l h = acquired h delta)%nat /\
    (acquired h delta <= 1)%nat /\
    (next_handle w <= h -> acquired h delta = 0)%nat.

(** The states N callers of the raster-engine gate go through when the
    start-up fails with [err]: the start-up is running, or it is over and
    the promise is rejected. *)
Definition vips_failed_inv (err : JsError) (s : VipsGlobal * list task) : Prop :=
  (fst s = mkVips (Suspended (Some err)) false 1 /\
   Forall (fun t => t = NotCalled \/ t = Awaiting 0) (snd s)) \/
  (fst s = mkVips (Rejected err) false 1 /\
   Forall (fun t => t = NotCalled \/ t = Awaiting 0 \/ t = Threw err) (snd s)).

(** ** The character list (getAvailableCharacters) *)

Module Info.
Record t : Type := mk {
  id : string;
  name : string
}.
End Info.

(** [entries] is [Object.entries(o)] for some state of the object [o]:
    its own properties, each once.  Their order is the property order of
    the object, the order of insertion for keys that are no array
    indices, which a finite map does not record. *)
Definition own_entries {V : Type} (o : gmap string V) (entries : list (string * V)) : Prop :=
  entries ≡ₚ map_to_list o.

(** [Object.entries(charaMeta).map(([id, meta]) => ({ id, name: meta.full_name }))],
    given [Object.entries(charaMeta)]. *)
Definition getAvailableCharacters (entries : list (string * CharacterMeta)) : list Info.t :=
  map (fun entry => Info.mk (fst entry) (full_name (snd entry))) entries.

(** ** The configuration files (loadYaml, initAssets) *)

(** What [yaml.load] gives for a file, as far as [initAssets] looks at
    it: [undefined] or [null] for an empty document, and otherwise a
    value whose properties [mahoshojo] and [text_configs] are read, each
    [None] when it is missing or falsy. *)
Inductive yaml_doc : Type :=
  | YamlNullish
  | YamlValue (mahoshojo : option (gmap string CharacterMeta))
              (text_configs : option (gmap string (list TextConfig))).

(** The module variables of [core.ts]. *)
Module Assets.
Record t : Type := mk {
  assetsPath : option string;
  charaMeta : gmap string CharacterMeta;
  textConfigs : gmap string (list TextConfig)
}.
(** The module just loaded. *)
Definition loaded : t := mk None ∅ ∅.
End Assets.

Section Configuration.

(** [path.join] and the file system with the YAML parser behind
    [loadYaml]: reading or parsing may throw. *)
Variable path_join : string -> string -> string.
Variable loadYaml : string -> res yaml_doc.

(** [data.mahoshojo || {}] and [data.text_configs || {}]; reading a
    property of [undefined] or [null] throws. *)
Definition mahoshojo_or_empty (data : yaml_doc) : res (gmap string CharacterMeta) :=
  match data with
  | YamlNullish => Throw (Error "Cannot read properties of undefined (reading 'mahoshojo')")
  | YamlValue field _ => Ok (default ∅ field)
  end.

Definition text_configs_or_empty (data : yaml_doc) : res (gmap string (list TextConfig)) :=
  match data with
  | YamlNullish => Throw (Error "Cannot read properties of undefined (reading 'text_configs')")
  | YamlValue _ field => Ok (default ∅ field)
  end.

(** The [try] block of [initAssets]: its completion and the module
    variables when it is left. *)
Definition initAssets_try (charaMetaPath textConfigPath : string) (a : Assets.t)
  : res unit * Assets.t :=
  match loadYaml charaMetaPath with
  | Throw err => (Throw err, a)
  | Ok charaMetaData =>
      match mahoshojo_or_empty charaMetaData with
      | Throw err => (Throw err, a)
      | Ok table =>
          let a1 := Assets.mk (Assets.assetsPath a) table (Assets.textConfigs a) in
          match loadYaml textConfigPath with
          | Throw err => (Throw err, a1)
          | Ok textConfigData =>
              match text_configs_or_empty textConfigData with
              | Throw err => (Throw err, a1)
              | Ok configs =>
                  (Ok tt, Assets.mk (Assets.assetsPath a1) (Assets.charaMeta a1) configs)
              end
          end
      end
  end.

(** [initAssets(basePath)]; the [catch] clause logs the error and the
    function returns. *)
Definition initAssets (basePath : string) (a : Assets.t) : Assets.t :=
  let a0 :=
    Assets.mk (Some (path_join basePath "assets")) (Assets.charaMeta a)
      (Assets.textConfigs a) in
  let configPath := path_join basePath "config" in
  let charaMetaPath := path_join configPath "chara_meta.yml" in
  let textConfigPath := path_join configPath "text_configs.yml" in
  snd (initAssets_try charaMetaPath textConfigPath a0).

End Configuration.

(** ** The command and the service (index.ts, service.ts) *)

(** WhiteSpace and LineTerminator, which [String.prototype.trim] removes. *)
Definition is_js_whitespace (u : Z) : bool :=
  ((9 <=? u) && (u <=? 13)) || (u =? 32) || (u =? 160) || (u =? 5760) ||
  ((8192 <=? u) && (u <=? 8202)) || (u =? 8232) || (u =? 8233) || (u =? 8239) ||
  (u =? 8287) || (u =? 12288) || (u =? 65279).

Fixpoint trim_start (s : jsstring) : jsstring :=
  match s with
  | [] => []
  | u :: rest => if is_js_whitespace u then trim_start rest else s
  end.

Definition trim_end (s : jsstring) : jsstring := rev (trim_start (rev s)).

(** [s.trim()]. *)
Definition js_trim (s : jsstring) : jsstring := trim_end (trim_start s).

(** [!text || text.trim() === ''], and with [text.trim().length === 0]
    the same; [None] is a text that was not given. *)
Definition blank (text : option jsstring) : bool :=
  match text with
  | None => true
  | Some s => negb (truthy_string s) || negb (truthy_string (js_trim s))
  end.

Definition newline : string := String (Ascii.ascii_of_nat 10) EmptyString.

(** [lines.join('\n')]. *)
Fixpoint join_lines (lines : list string) : string :=
  match lines with
  | [] => ""
  | [line] => line
  | line :: rest => line ++ newline ++ join_lines rest
  end.

Module Options.
Record t : Type := mk {
  character : option string;
  text : option jsstring;
  backgroundIndex : option Z;
  emotionIndex : option Z
}.
End Options.

Section Commands.

Variable host : Host.
Variable charaMeta : gmap string CharacterMeta.
Variable textConfigs : gmap string (list TextConfig).

(** [Object.entries(charaMeta)]. *)
Variable charaMeta_entries : list (string * CharacterMeta).

(** [config.defaultCharacter] and [session.send]. *)
Variable defaultCharacter : string.
Variable session_send : Buffer -> res unit.

(** The action of the command [mtb]: the reply, [None] when the action
    returns nothing. *)
Definition mtb_action (character : string) (text : option jsstring) : M unit (option string) :=
  match text with
  | Some s =>
      if blank text then ret (Some "请输入要生成的文本内容"%string)
      else
        try_catch
          (let* imageBuffer :=
             generateTextBoxImage host charaMeta textConfigs character s None None in
           of_res (session_send imageBuffer) ;;;
           ret None)
          (fun err => ret (Some ("生成图片失败: " ++ message err)%string))
  | None => ret (Some "请输入要生成的文本内容"%string)
  end.

(** The action of the command [mtb.list]. *)
Definition mtb_list_action : string :=
  let characters := getAvailableCharacters charaMeta_entries in
  if Nat.eqb (length characters) 0 then "暂无可用角色"%string
  else
    let characterList :=
      join_lines (map (fun char => Info.id char ++ ": " ++ Info.name char)%string characters) in
    ("可用角色列表：" ++ newline ++ characterList ++ newline ++ newline
       ++ "使用方法：mtb -c <角色ID> <文本内容>")%string.

(** [ManosabaTextBoxService.generateImage]; the [catch] clause logs the
    error and throws it again. *)
Definition generateImage (options : Options.t) : M unit Buffer :=
  let character := default defaultCharacter (Options.character options) in
  match Options.text options with
  | Some s =>
      if blank (Options.text options) then throw (Error "文本内容不能为空")
      else
        try_catch
          (generateTextBoxImage host charaMeta textConfigs character s
             (Options.backgroundIndex options) (Options.emotionIndex options))
          (fun error => throw error)
  | None => throw (Error "文本内容不能为空")
  end.

(** [ManosabaTextBoxService.getCharacters]. *)
Definition getCharacters : list Info.t := getAvailableCharacters charaMeta_entries.

End Commands.
(* ================================================================= *)
(** * Properties *)

(** ** Numbers *)

Lemma js_ge_zero_false (m : jsnum) :
  js_le (num 1) m = true -> js_ge (num 0) m = false.
Proof.
  unfold js_ge, num. destruct m as [| |q|]; simpl; try discriminate; try reflexivity.
  intros H. apply Qle_bool_iff in H.
  destruct (Qle_bool q (inject_Z 0)) eqn:E; [|reflexivity].
  apply Qle_bool_iff in E. exfalso.
  assert (H1 : (inject_Z 1 <= inject_Z 0)%Q) by (eapply Qle_trans; eauto).
  unfold Qle in H1. simpl in H1. lia.
Qed.

Lemma positive_compare (z : Z) : 0 < z -> (inject_Z z ?= 0)%Q = Gt.
Proof.
  intros H. unfold Qcompare. simpl. rewrite Z.mul_1_r. apply Z.compare_gt_iff. lia.
Qed.

(** ** The string iterator *)

Lemma string_iterator_concat (s : jsstring) : concat (string_iterator s) = s.
Proof.
  assert (H : forall (n : nat) (t : jsstring),
             (length t <= n)%nat -> concat (string_iterator t) = t).
  { induction n as [|n IH]; intros [|u [|v rest]] Hl; simpl in *;
      try reflexivity; try lia.
    destruct (is_high_surrogate u && is_low_surrogate v); simpl.
    - rewrite IH by lia. reflexivity.
    - f_equal. apply (IH (v :: rest)). simpl. lia. }
  apply (H (length s)). lia.
Qed.

Lemma string_iterator_iterated (s : jsstring) : iterated (string_iterator s).
Proof. unfold iterated. now rewrite string_iterator_concat. Qed.

(** The first character of a string and the iteration of the rest. *)
Lemma string_iterator_cons (s c : jsstring) (ds : list jsstring) :
  string_iterator s = c :: ds ->
  exists rest, s = c ++ rest /\ ds = string_iterator rest.
Proof.
  destruct s as [|u [|v rest]]; simpl; [discriminate| |].
  - intros [= <- <-]. now exists [].
  - destruct (is_high_surrogate u && is_low_surrogate v); intros [= <- <-].
    + now exists rest.
    + now exists (v :: rest).
Qed.

(** A first character stays the first character when the string is cut
    somewhere behind it. *)
Lemma string_iterator_cut (c r1 r2 : jsstring) (ds : list jsstring) :
  string_iterator (c ++ r1 ++ r2) = c :: ds ->
  string_iterator (c ++ r1) = c :: string_iterator r1.
Proof.
  destruct c as [|u [|v [|x c]]]; simpl.
  - destruct (r1 ++ r2) as [|a [|b t]]; simpl; [discriminate|discriminate|].
    destruct (is_high_surrogate a && is_low_surrogate b); discriminate.
  - destruct r1 as [|v r1]; simpl; [reflexivity|].
    destruct (is_high_surrogate u && is_low_surrogate v); [discriminate|reflexivity].
  - destruct (is_high_surrogate u && is_low_surrogate v); [reflexivity|].
    destruct (r1 ++ r2); discriminate.
  - destruct (is_high_surrogate u && is_low_surrogate v); discriminate.
Qed.

Lemma iterated_tail (c : jsstring) (ds : list jsstring) :
  iterated (c :: ds) -> iterated ds.
Proof.
  unfold iterated. simpl. intros H.
  destruct (string_iterator_cons _ _ _ H) as (rest & E & ->).
  apply app_inv_head in E. rewrite E. reflexivity.
Qed.

Lemma iterated_suffix (pre ds : list jsstring) : iterated (pre ++ ds) -> iterated ds.
Proof.
  induction pre as [|c pre IH]; simpl; [trivial|].
  intros H. apply IH. eapply iterated_tail; eauto.
Qed.

Lemma iterated_prefix (ds post : list jsstring) : iterated (ds ++ post) -> iterated ds.
Proof.
  induction ds as [|c ds IH]; simpl; intros H; [reflexivity|].
  pose proof (iterated_tail _ _ H) as Ht. specialize (IH Ht).
  unfold iterated in *. simpl in *.
  rewrite concat_app in H.
  rewrite (string_iterator_cut _ _ _ _ H). now rewrite IH.
Qed.

(** ** Line wrapping *)

Lemma wrap_fold (m : jsnum) (chars : list jsstring) (st : WrapState) :
  let st' := fold_left (wrap_step m) chars st in
  (if truthy_string (currentLine st') then lines st' ++ [currentLine st'] else lines st')
  = lines st ++ wrap_from m chars (currentLine st).
Proof.
  revert st. induction chars as [|c rest IH]; intros st; simpl.
  - destruct (truthy_string (currentLine st)); [reflexivity|now rewrite app_nil_r].
  - rewrite IH. unfold wrap_step.
    destruct (js_ge (js_length (currentLine st)) m); simpl; [|reflexivity].
    now rewrite <- app_assoc.
Qed.

Lemma wrap_lines_from (m : jsnum) (text : jsstring) :
  wrap_lines m text = wrap_from m (string_iterator text) [].
Proof. unfold wrap_lines. now rewrite wrap_fold. Qed.

(** Characters that may all be appended end up in one line. *)
Lemma wrap_from_appendable (m : jsnum) (ds : list jsstring) (cur : jsstring) :
  (forall j : nat, (j < length ds)%nat ->
     js_ge (js_length (cur ++ concat (take j ds))) m = false) ->
  wrap_from m ds cur =
    if truthy_string (cur ++ concat ds) then [cur ++ concat ds] else [].
Proof.
  revert cur. induction ds as [|d ds IH]; intros cur H; simpl.
  - now rewrite app_nil_r.
  - pose proof (H 0%nat ltac:(simpl; lia)) as H0. simpl in H0.
    rewrite app_nil_r in H0. rewrite H0.
    rewrite IH; [now rewrite <- app_assoc|].
    intros j Hj. specialize (H (S j) ltac:(simpl; lia)). simpl in H.
    now rewrite <- app_assoc.
Qed.

Lemma truthy_string_nonempty {A : Type} (s : list A) : s <> [] -> truthy_string s = true.
Proof. destruct s; [congruence|reflexivity]. Qed.

(** Every line the loop pushes is the concatenation of consecutive
    characters of the input that were appendable one after the other. *)
Lemma wrap_from_lines (m : jsnum) (chars cur_chars : list jsstring) (line : jsstring) :
  js_le (num 1) m = true ->
  appendable m cur_chars ->
  In line (wrap_from m chars (concat cur_chars)) ->
  exists ds pre post,
    line = concat ds /\ line <> [] /\ appendable m ds /\
    cur_chars ++ chars = pre ++ ds ++ post.
Proof.
  intros Hm. revert cur_chars.
  induction chars as [|c rest IH]; intros cur_chars Hcur; simpl.
  - destruct (concat cur_chars) eqn:E; simpl; [tauto|].
    intros [<-|[]]. exists cur_chars, [], [].
    rewrite E, !app_nil_r. repeat split; [discriminate|assumption].
  - destruct (js_ge (js_length (concat cur_chars)) m) eqn:Hge.
    + intros [<-|Hin].
      * exists cur_chars, [], (c :: rest). repeat split; [|assumption].
        intros E. rewrite E in Hge. pose proof (js_ge_zero_false _ Hm) as Hz.
        change (js_ge (js_length (@nil Z)) m = false) in Hz. congruence.
      * assert (Hc : appendable m [c]).
        { intros [|j] Hj; simpl in *; [now apply js_ge_zero_false|lia]. }
        replace c with (concat [c]) in Hin by (simpl; now rewrite app_nil_r).
        destruct (IH [c] Hc Hin) as (ds & pre & post & E1 & E2 & E3 & E4).
        exists ds, (cur_chars ++ pre), post. repeat split; try assumption.
        simpl in E4. rewrite E4, <- app_assoc. reflexivity.
    + intros Hin.
      assert (Hc : appendable m (cur_chars ++ [c])).
      { intros j Hj. rewrite length_app in Hj. simpl in Hj.
        destruct (decide (j < length cur_chars)%nat) as [Hlt|Hnlt].
        - rewrite take_app_le by lia. apply Hcur, Hlt.
        - assert (j = length cur_chars) as -> by lia.
          rewrite take_app_le by lia. rewrite firstn_all. exact Hge. }
      replace (concat cur_chars ++ c) with (concat (cur_chars ++ [c])) in Hin
        by (rewrite concat_app; simpl; now rewrite app_nil_r).
      destruct (IH _ Hc Hin) as (ds & pre & post & E1 & E2 & E3 & E4).
      exists ds, pre, post. repeat split; try assumption.
      rewrite <- E4, <- app_assoc. reflexivity.
Qed.

Lemma wrap_lines_line (m : jsnum) (text line : jsstring) :
  js_le (num 1) m = true ->
  In line (wrap_lines m text) ->
  wrap_lines m line = [line].
Proof.
  intros Hm Hin. rewrite wrap_lines_from in Hin.
  assert (H0 : appendable m []) by (intros j Hj; simpl in Hj; lia).
  destruct (wrap_from_lines m _ [] line Hm H0 Hin) as (ds & pre & post & -> & Hne & Hap & E).
  simpl in E.
  assert (Hit : iterated ds).
  { pose proof (string_iterator_iterated text) as H. rewrite E in H.
    eapply iterated_prefix, iterated_suffix; eauto. }
  rewrite wrap_lines_from, Hit.
  rewrite wrap_from_appendable; simpl.
  - now rewrite truthy_string_nonempty.
  - exact Hap.
Qed.

(** C8: for [maxCharsPerLine >= 1], wrapping again any line that the
    greedy per-character wrap produced gives back that single line, so
    wrapping the lines of a wrap keeps all line boundaries. *)
Theorem wrap_lines_idempotent (maxCharsPerLine : jsnum) (text : jsstring) :
  js_le (num 1) maxCharsPerLine = true ->
  (forall line, In line (wrap_lines maxCharsPerLine text) ->
     wrap_lines maxCharsPerLine line = [line]) /\
  concat (map (wrap_lines maxCharsPerLine) (wrap_lines maxCharsPerLine text))
    = wrap_lines maxCharsPerLine text.
Proof.
  intros Hm.
  assert (H : forall line, In line (wrap_lines maxCharsPerLine text) ->
                wrap_lines maxCharsPerLine line = [line])
    by (intros line; now apply wrap_lines_line).
  split; [exact H|].
  induction (wrap_lines maxCharsPerLine text) as [|l ls IH]; simpl; [reflexivity|].
  rewrite (H l) by (now left). simpl. f_equal. apply IH.
  intros line Hin. apply H. now right.
Qed.

Lemma wrap_lines_idempotent_witness :
  js_le (num 1) (num 2) = true /\
  (forall line, In line (wrap_lines (num 2) [65; 55357; 56832; 66; 67]) ->
     wrap_lines (num 2) line = [line]) /\
  concat (map (wrap_lines (num 2)) (wrap_lines (num 2) [65; 55357; 56832; 66; 67]))
    = wrap_lines (num 2) [65; 55357; 56832; 66; 67].
Proof.
  split; [reflexivity|].
  apply (wrap_lines_idempotent (num 2) [65; 55357; 56832; 66; 67]). reflexivity.
Defined.

(** ** Vector documents *)

Lemma wrap_lines_empty (m : jsnum) : wrap_lines m [] = [].
Proof. reflexivity. Qed.

(** C10, as the code has it: for the empty text and a positive font
    size [generateTextSvg] wraps to no line and emits no text element,
    and the declared width is [-Infinity], which is not positive. *)
Theorem generateTextSvg_empty_text (encodeXML : jsstring -> jsstring)
    (width fontSize : Z) (color : string) :
  0 < fontSize ->
  wrap_lines (js_floor (js_div (num width) (num fontSize))) [] = [] /\
  textElements (generateTextSvg encodeXML [] width fontSize color) = [] /\
  svgWidth (generateTextSvg encodeXML [] width fontSize color) = NegInf /\
  js_le (svgWidth (generateTextSvg encodeXML [] width fontSize color)) (num 0) = true.
Proof.
  intros Hpos. unfold generateTextSvg. rewrite wrap_lines_empty. simpl.
  unfold Math_max. simpl. rewrite positive_compare by assumption. simpl.
  repeat split; reflexivity.
Qed.

Lemma generateTextSvg_empty_text_witness :
  0 < 120 /\
  wrap_lines (js_floor (js_div (num 1611) (num 120))) [] = [] /\
  textElements (generateTextSvg (fun s => s) [] 1611 120 "#FFFFFF") = [] /\
  svgWidth (generateTextSvg (fun s => s) [] 1611 120 "#FFFFFF") = NegInf /\
  js_le (svgWidth (generateTextSvg (fun s => s) [] 1611 120 "#FFFFFF")) (num 0) = true.
Proof.
  split; [lia|].
  apply (generateTextSvg_empty_text (fun s => s) 1611 120 "#FFFFFF"). lia.
Defined.

(** C10 as stated fails.  The document of the empty text is handed to
    the renderer like any other, and what the renderer makes of it is
    composed: with a renderer that takes this document and no other,
    [drawUserText] on the empty text returns the captioned bytes, not the
    bytes of the base image, after one composite with the rendering.  And
    the declared width is [-Infinity] for a positive font size only: it is
    [NaN] for the font size 0 and [+Infinity] for a negative one. *)
Lemma empty_text_is_rendered :
  (exists l' w',
     drawUserText empty_document_host base_bytes [] USER_TEXT_BOX_RECT
         USER_TEXT_FONT_SIZE (FontFile "font3.ttf") Draw.init world_ready
       = (Ok avif_bytes, l', w') /\
     avif_bytes <> base_bytes /\
     composites (events w') = [(rgba_image, caption_image)]) /\
  (exists l' w',
     drawUserText empty_document_host base_bytes [72; 105] USER_TEXT_BOX_RECT
         USER_TEXT_FONT_SIZE (FontFile "font3.ttf") Draw.init world_ready
       = (Ok base_bytes, l', w') /\
     composites (events w') = []) /\
  svgWidth (generateTextSvg (fun s => s) [] 1611 0 "#FFFFFF") = NaN /\
  svgWidth (generateTextSvg (fun s => s) [] 1611 (-10) "#FFFFFF") = PosInf.
Proof.
  split; [|split; [|split]].
  - eexists _, _. split; [vm_compute; reflexivity|].
    split; [discriminate|vm_compute; reflexivity].
  - eexists _, _. split; vm_compute; reflexivity.
  - vm_compute. reflexivity.
  - vm_compute. reflexivity.
Qed.

(** The elements of a document in which every line gives two. *)
Lemma concat_imap_pair_length {A B : Type} (f g : nat -> A -> B) (l : list A) :
  length (concat (imap (fun i x => [f i x; g i x]) l)) = (2 * length l)%nat.
Proof.
  revert f g. induction l as [|x l IH]; intros f g; simpl; [reflexivity|].
  specialize (IH (fun i => f (S i)) (fun i => g (S i))).
  unfold compose. simpl in *. rewrite IH. lia.
Qed.

Lemma concat_imap_pair_lookup {A B : Type} (f g : nat -> A -> B) (l : list A)
    (i : nat) (x : A) :
  l !! i = Some x ->
  concat (imap (fun i x => [f i x; g i x]) l) !! (2 * i)%nat = Some (f i x) /\
  concat (imap (fun i x => [f i x; g i x]) l) !! (2 * i + 1)%nat = Some (g i x).
Proof.
  revert f g i. induction l as [|y l IH]; intros f g i; [discriminate|].
  destruct i as [|i]; simpl.
  - intros [= ->]. split; reflexivity.
  - intros H. specialize (IH (fun i => f (S i)) (fun i => g (S i)) i H).
    replace (i + S (i + 0))%nat with (S (2 * i)) by lia.
    simpl. unfold compose. exact IH.
Qed.

(** The wrapped document: what is emitted for the line at [i]. *)
Lemma generateTextSvg_line (encodeXML : jsstring -> jsstring) (text : jsstring)
    (width fontSize : Z) (color : string) (i : nat) (line : jsstring) :
  wrap_lines (js_floor (js_div (num width) (num fontSize))) text !! i = Some line ->
  exists shadow fill,
    textElements (generateTextSvg encodeXML text width fontSize color) !! (2 * i)%nat
      = Some shadow /\
    textElements (generateTextSvg encodeXML text width fontSize color) !! (2 * i + 1)%nat
      = Some fill /\
    drop_shadow_pair true (PaintLiteral color) shadow fill /\
    attr_y fill = baseline fontSize i /\
    content fill = encodeXML line.
Proof.
  intros H. unfold generateTextSvg. simpl.
  destruct (concat_imap_pair_lookup
              (fun index line =>
                 mkText 2 (js_add (baseline fontSize index) (num 2)) fontSize
                   (PaintLiteral "#000000") (Some "0.5"%string) "CustomFont"
                   (encodeXML line))
              (fun index line =>
                 mkText 0 (baseline fontSize index) fontSize (PaintLiteral color) None
                   "CustomFont" (encodeXML line))
              _ i line H) as [H1 H2].
  eexists _, _. split; [exact H1|]. split; [exact H2|].
  repeat split; reflexivity.
Qed.

(** The name-caption document: its two elements. *)
Lemma name_svg_elements (host : Host) (config : TextConfig) :
  exists shadow fill,
    textElements (name_svg host config) = [shadow; fill] /\
    drop_shadow_pair false (PaintRgb (font_color config)) shadow fill /\
    attr_y fill = js_mul (num (font_size config)) (Fin 1.2) /\
    content fill = encodeXML host (text config).
Proof.
  eexists _, _. split; [reflexivity|]. repeat split; reflexivity.
Qed.

(** C7, as the code has it: in the wrapped user-caption document every
    line gives two elements, first a black copy at (2, y + 2) with
    [fill-opacity="0.5"], then the copy in the requested colour at (0, y);
    a name-caption document has the same two elements in the same order,
    but its black copy carries no [fill-opacity] attribute. *)
Theorem shadow_then_fill (host : Host) (userText : jsstring) (width fontSize : Z)
    (color : string) (config : TextConfig) :
  let doc := generateTextSvg (encodeXML host) userText width fontSize color in
  let lines := wrap_lines (js_floor (js_div (num width) (num fontSize))) userText in
  length (textElements doc) = (2 * length lines)%nat /\
  (forall (i : nat) (line : jsstring), lines !! i = Some line ->
     exists shadow fill,
       textElements doc !! (2 * i)%nat = Some shadow /\
       textElements doc !! (2 * i + 1)%nat = Some fill /\
       drop_shadow_pair true (PaintLiteral color) shadow fill /\
       content fill = encodeXML host line) /\
  (exists shadow fill,
     textElements (name_svg host config) = [shadow; fill] /\
     drop_shadow_pair false (PaintRgb (font_color config)) shadow fill /\
     content fill = encodeXML host (text config)).
Proof.
  simpl. split; [|split].
  - unfold generateTextSvg. simpl. apply concat_imap_pair_length.
  - intros i line H.
    destruct (generateTextSvg_line (encodeXML host) userText width fontSize color i line H)
      as (shadow & fill & H1 & H2 & H3 & _ & H5).
    exists shadow, fill. auto.
  - destruct (name_svg_elements host config) as (shadow & fill & H1 & H2 & _ & H4).
    exists shadow, fill. auto.
Qed.

(** C7 as stated fails for name captions: the black copy of a name
    caption has no [fill-opacity] attribute, so it is not drawn at reduced
    opacity. *)
Lemma name_svg_shadow_is_opaque :
  let config := mkTextConfig [26716] (759, 63) [253; 145; 175] 186 in
  ~ exists shadow fill,
      textElements (name_svg (sample_host rgba_image false) config) = [shadow; fill] /\
      drop_shadow_pair true (PaintRgb (font_color config)) shadow fill.
Proof.
  intros config (shadow & fill & E & H).
  injection E as <- <-. destruct H as (_ & _ & _ & _ & Hop & _). discriminate.
Qed.

(** ** The font-size search *)

(** The loop either leaves [fontSize] as it was, and then no candidate
    fits, or stops at the first candidate that fits. *)
Lemma font_size_loop_cases (len w h fs t : Z) :
  (font_size_loop len w h fs t = fs /\
   forall k, 0 <= k -> 24 <= t - 6 * k -> fits len w h (t - 6 * k) = false) \/
  (exists k, 0 <= k /\ font_size_loop len w h fs t = t - 6 * k /\
     24 <= t - 6 * k /\ fits len w h (t - 6 * k) = true /\
     forall j, 0 <= j < k -> fits len w h (t - 6 * j) = false).
Proof.
  funelim (font_size_loop len w h fs t).
  - destruct (fits textLength boxWidth boxHeight testFontSize) eqn:Hfit.
    + right. exists 0. rewrite Z.mul_0_r, Z.sub_0_r.
      repeat split; try assumption; lia.
    + destruct H as [[Hr Hnone]|(k & Hk & Hr & Hge & Hfits & Hfirst)].
      * left. split; [assumption|]. intros k Hk Hge.
        destruct (Z.eq_dec k 0) as [->|Hne].
        -- now rewrite Z.mul_0_r, Z.sub_0_r.
        -- replace (testFontSize - 6 * k) with (testFontSize - 6 - 6 * (k - 1)) by lia.
           apply Hnone; lia.
      * right. exists (k + 1).
        replace (testFontSize - 6 * (k + 1)) with (testFontSize - 6 - 6 * k) by lia.
        repeat split; try assumption; try lia.
        intros j Hj. destruct (Z.eq_dec j 0) as [->|Hne].
        -- now rewrite Z.mul_0_r, Z.sub_0_r.
        -- replace (testFontSize - 6 * j) with (testFontSize - 6 - 6 * (j - 1)) by lia.
           apply Hfirst; lia.
  - left. split; [reflexivity|]. intros k Hk Hge. lia.
Qed.


(** The example of the specification: "AAAA" in a box 200 wide, from
    size 40, stays at 40 when the box is 60 high, and shrinks otherwise. *)
Example adjusted_font_size_AAAA :
  adjusted_font_size [65; 65; 65; 65] 200 60 40 = 40 /\
  estimated_height 4 200 40 = num 60 /\
  fits_binary64 4 200 60 40 = true /\
  adjusted_font_size [65; 65; 65; 65] 200 59 40 = 34.
Proof. repeat split; vm_compute; reflexivity. Qed.

(** Candidates between the initial size and 24, by exhaustion. *)
Lemma candidates_below (P : Z -> Prop) (t : Z) (n : nat) :
  (forall i : nat, (i < n)%nat -> P (t - 6 * Z.of_nat i)) ->
  t - 6 * Z.of_nat n < 24 ->
  forall k, 0 <= k -> 24 <= t - 6 * k -> P (t - 6 * k).
Proof.
  intros Hall Hend k Hk Hge.
  replace k with (Z.of_nat (Z.to_nat k)) by lia. apply Hall. lia.
Qed.

(** At the input of the next theorem rounding decides nothing: the
    binary64 test fails at each of the seventeen candidates, and the
    exact heights are beyond the height of the box as well. *)
Lemma nothing_fits_in_binary64 :
  forallb (fun i => negb (fits_binary64 1100 1611 445 (120 - 6 * Z.of_nat i))) (seq 0 17)
    = true /\
  forallb (fun i => negb (js_le (estimated_height 1100 1611 (120 - 6 * Z.of_nat i))
                            (num 445)))
    (seq 0 17) = true.
Proof. split; vm_compute; reflexivity. Qed.

(** C1 at a text of 1100 code units in the user-caption box (1611 by
    445) with the initial size 120: the smallest candidate, 24, does not
    fit, no other candidate does, and the size handed to the document
    generator is 120, the initial size, and not 24. *)
Theorem adjusted_font_size_when_nothing_fits :
  let userText := repeat 65 1100 in
  let '((x1, y1), (x2, y2)) := USER_TEXT_BOX_RECT in
  let boxWidth := x2 - x1 in
  let boxHeight := y2 - y1 in
  (forall k, 0 <= k -> 24 <= USER_TEXT_FONT_SIZE - 6 * k ->
     fits (Z.of_nat (length userText)) boxWidth boxHeight (USER_TEXT_FONT_SIZE - 6 * k)
       = false) /\
  adjusted_font_size userText boxWidth boxHeight USER_TEXT_FONT_SIZE = 120 /\
  adjusted_font_size userText boxWidth boxHeight USER_TEXT_FONT_SIZE <> 24.
Proof.
  simpl. split; [|split].
  - apply (candidates_below
             (fun size => fits (Z.of_nat 1100) (2339 - 728) (800 - 355) size = false)
             USER_TEXT_FONT_SIZE 17).
    + intros i Hi.
      do 17 (destruct i as [|i]; [vm_compute; reflexivity|]). lia.
    + vm_compute. reflexivity.
  - vm_compute. reflexivity.
  - vm_compute. discriminate.
Qed.

(** ** The renderer gate, one caller at a time *)

Lemma lookup_pushed (l : list promise) (pr : promise) :
  (l ++ [pr]) !! length l = Some pr.
Proof. now apply list_lookup_middle. Qed.

Lemma insert_pushed (l : list promise) (pr pr' : promise) :
  <[length l := pr']> (l ++ [pr]) = l ++ [pr'].
Proof.
  rewrite insert_app_r_alt by lia. now rewrite Nat.sub_diag.
Qed.

(** [initWasm] ends well: the gate is ready. *)
Lemma ensureResvgInitialized_success (backing : nat -> Backing) (g : ResvgGlobal) :
  initialized g = false -> initializing g = None ->
  backing (length (arrow_promises g)) = InitWasm None ->
  ensureResvgInitialized backing g =
    (Ok tt, mkResvg true (Some (length (arrow_promises g)))
              (arrow_promises g ++ [Fulfilled]) (S (initWasm_calls g))).
Proof.
  intros Hi Hp Hb. unfold ensureResvgInitialized, resvg_enter, arrow_call.
  rewrite Hi, Hp, Hb. unfold resvg_settle, resvg_resume. simpl.
  rewrite lookup_pushed. simpl. unfold store_promise. simpl.
  rewrite insert_pushed, lookup_pushed, ?Hi. reflexivity.
Qed.

(** [initWasm] says that the renderer is initialised already: the gate
    is ready and the caller sees no error. *)
Lemma ensureResvgInitialized_already (backing : nat -> Backing) (g : ResvgGlobal)
    (err : JsError) :
  initialized g = false -> initializing g = None ->
  backing (length (arrow_promises g)) = InitWasm (Some err) ->
  already_initialized err = true ->
  ensureResvgInitialized backing g =
    (Ok tt, mkResvg true (Some (length (arrow_promises g)))
              (arrow_promises g ++ [Fulfilled]) (S (initWasm_calls g))).
Proof.
  intros Hi Hp Hb Ha. unfold ensureResvgInitialized, resvg_enter, arrow_call.
  rewrite Hi, Hp, Hb. unfold resvg_settle, resvg_resume. simpl.
  rewrite lookup_pushed. unfold catch_clause. rewrite Ha. simpl.
  unfold store_promise. simpl. rewrite insert_pushed, lookup_pushed, ?Hi. reflexivity.
Qed.

(** [initWasm] fails otherwise: the error reaches the caller and the
    globals are those of an uninitialised gate again, so that the next
    call starts a new attempt. *)
Lemma ensureResvgInitialized_rejected (backing : nat -> Backing) (g : ResvgGlobal)
    (err : JsError) :
  initialized g = false -> initializing g = None ->
  backing (length (arrow_promises g)) = InitWasm (Some err) ->
  already_initialized err = false ->
  ensureResvgInitialized backing g =
    (Throw err, mkResvg false None (arrow_promises g ++ [Rejected err])
                  (S (initWasm_calls g))).
Proof.
  intros Hi Hp Hb Ha. unfold ensureResvgInitialized, resvg_enter, arrow_call.
  rewrite Hi, Hp, Hb. unfold resvg_settle, resvg_resume. simpl.
  rewrite lookup_pushed. unfold catch_clause. rewrite Ha. simpl.
  unfold store_promise. simpl. rewrite insert_pushed, lookup_pushed, ?Hi. reflexivity.
Qed.

Lemma ensureResvgInitialized_retries (backing : nat -> Backing) (g : ResvgGlobal)
    (err : JsError) :
  initialized g = false -> initializing g = None ->
  backing (length (arrow_promises g)) = InitWasm (Some err) ->
  already_initialized err = false ->
  backing (S (length (arrow_promises g))) = InitWasm None ->
  exists g1 g2,
    ensureResvgInitialized backing g = (Throw err, g1) /\
    ensureResvgInitialized backing g1 = (Ok tt, g2) /\
    initialized g2 = true /\
    initWasm_calls g2 = S (S (initWasm_calls g)).
Proof.
  intros Hi Hp Hb Ha Hb2. eexists _, _.
  split; [now apply ensureResvgInitialized_rejected|].
  split; [|split].
  - apply ensureResvgInitialized_success; simpl; try reflexivity.
    rewrite length_app. simpl. rewrite Nat.add_1_r. exact Hb2.
  - reflexivity.
  - reflexivity.
Qed.

(** C4 where [require.resolve] or [fs.readFileSync] throws: the catch
    clause resets [globalState.initializing] while the arrow call is still
    running, and the assignment of the call's result then stores the
    rejected promise.  The caller gets the error, the gate is left with a
    promise in [initializing], and every later call throws the same error
    without a new attempt, whatever the backing system would do then. *)
Theorem ensureResvgInitialized_sync_failure (backing : nat -> Backing) (g : ResvgGlobal)
    (err : JsError) :
  initialized g = false -> initializing g = None ->
  backing (length (arrow_promises g)) = SyncThrow err ->
  already_initialized err = false ->
  exists g',
    ensureResvgInitialized backing g = (Throw err, g') /\
    initialized g' = false /\
    initializing g' = Some (length (arrow_promises g)) /\
    forall backing', ensureResvgInitialized backing' g' = (Throw err, g').
Proof.
  intros Hi Hp Hb Ha.
  exists (mkResvg false (Some (length (arrow_promises g)))
            (arrow_promises g ++ [Rejected err]) (initWasm_calls g)).
  split; [|split; [reflexivity|split; [reflexivity|]]].
  - unfold ensureResvgInitialized, resvg_enter, arrow_call.
    rewrite Hi, Hp, Hb. unfold catch_clause. rewrite Ha. simpl.
    unfold resvg_settle, resvg_resume. simpl. rewrite lookup_pushed. simpl.
    rewrite lookup_pushed, ?Hi. reflexivity.
  - intros backing'. unfold ensureResvgInitialized, resvg_enter. simpl.
    unfold resvg_settle, resvg_resume. simpl. rewrite lookup_pushed. simpl.
    rewrite lookup_pushed, ?Hi. reflexivity.
Qed.

Lemma ensureResvgInitialized_sync_failure_witness :
  let backing := fun n : nat =>
    match n with
    | O => SyncThrow (Error "ENOENT: no such file or directory")
    | S _ => InitWasm None
    end in
  let err := Error "ENOENT: no such file or directory" in
  exists g',
    ensureResvgInitialized backing resvg_fresh = (Throw err, g') /\
    initialized g' = false /\
    initializing g' = Some 0%nat /\
    forall backing', ensureResvgInitialized backing' g' = (Throw err, g').
Proof.
  simpl.
  apply (ensureResvgInitialized_sync_failure
           (fun n : nat =>
              match n with
              | O => SyncThrow (Error "ENOENT: no such file or directory")
              | S _ => InitWasm None
              end)
           resvg_fresh (Error "ENOENT: no such file or directory"));
    reflexivity.
Defined.

(** ** Concurrent callers *)

Lemma tasks_weight_insert (ts : list task) (i : nat) (t t' : task) :
  ts !! i = Some t ->
  (tasks_weight (<[i := t']> ts) + task_weight t = tasks_weight ts + task_weight t')%nat.
Proof.
  unfold tasks_weight. revert i. induction ts as [|x ts IH]; intros [|i]; simpl;
    try discriminate.
  - intros [= ->]. lia.
  - intros H. specialize (IH i H). lia.
Qed.

Section SchedulerFacts.

Context {G : Type}.
Variable enter : G -> entry * G.
Variable settle : nat -> G -> option G.
Variable resume : nat -> G -> option (res unit * G).
Variable Inv : G * list task -> Prop.
Variable measure : G * list task -> nat.

Hypothesis Inv_step : forall s s',
  Inv s -> step enter settle resume s s' -> Inv s' /\ (measure s' < measure s)%nat.

(** An invariant that every step keeps, and a measure that every step
    lowers, hold and bound the length of every execution. *)
Lemma steps_invariant (n : nat) (s s' : G * list task) :
  Inv s -> steps enter settle resume n s s' ->
  Inv s' /\ (measure s' + n <= measure s)%nat /\ length (snd s') = length (snd s).
Proof.
  intros Hs Hsteps. induction Hsteps as [s|n s1 s2 s3 H12 IH H23].
  - repeat split; [assumption|lia].
  - destruct (IH Hs) as (H2 & Hm & Hl).
    destruct (Inv_step _ _ H2 H23) as [H3 Hlt].
    repeat split; [assumption|lia|].
    rewrite <- Hl. inversion H23; subst; simpl; try reflexivity;
      now rewrite length_insert.
Qed.

(** In a state where nothing can happen any more, no caller is still
    to arrive. *)
Lemma quiescent_all_called (g : G) (ts : list task) :
  quiescent enter settle resume (g, ts) -> Forall (fun t => t <> NotCalled) ts.
Proof.
  intros Hq. apply Forall_lookup. intros i t Hi ->.
  destruct (enter g) as [e g'] eqn:He.
  exact (Hq _ (step_enter enter settle resume i g ts e g' Hi He)).
Qed.

End SchedulerFacts.





Lemma tasks_weight_replicate (N : nat) : tasks_weight (replicate N NotCalled) = (3 * N)%nat.
Proof. unfold tasks_weight. induction N as [|N IH]; simpl in *; lia. Qed.



Lemma step_enter_to {G : Type} (enter : G -> entry * G) (settle : nat -> G -> option G)
    (resume : nat -> G -> option (res unit * G)) (i : nat) (g g' : G) (e : entry)
    (ts ts' : list task) :
  ts !! i = Some NotCalled -> enter g = (e, g') -> ts' = <[i := task_of_entry e]> ts ->
  step enter settle resume (g, ts) (g', ts').
Proof. intros Hi He ->. now apply step_enter. Qed.

Lemma step_resume_to {G : Type} (enter : G -> entry * G) (settle : nat -> G -> option G)
    (resume : nat -> G -> option (res unit * G)) (i p : nat) (g g' : G) (r : res unit)
    (ts ts' : list task) :
  ts !! i = Some (Awaiting p) -> resume p g = Some (r, g') ->
  ts' = <[i := task_of_res r]> ts ->
  step enter settle resume (g, ts) (g', ts').
Proof. intros Hi Hr ->. now apply (step_resume _ _ _ i p). Qed.


(** ** The catalog guard *)

Lemma js_get_undefined {V : Type} (o : gmap string V) (key : string) :
  js_get o key = Undefined <-> o !! key = None /\ key ∉ Object_prototype.
Proof.
  unfold js_get. destruct (o !! key) as [v|]; [split; [discriminate|intros [? _]; discriminate]|].
  destruct (bool_decide (key ∈ Object_prototype)) eqn:E.
  - apply bool_decide_eq_true in E. split; [discriminate|]. intros [_ H]. contradiction.
  - apply bool_decide_eq_false in E. split; [now split|reflexivity].
Qed.

(** A character that is no property of the catalog at all is rejected
    before anything else happens: the world is unchanged. *)
Lemma generateTextBoxImage_unknown (host : Host) (charaMeta : gmap string CharacterMeta)
    (textConfigs : gmap string (list TextConfig)) (character : string) (userText : jsstring)
    (backgroundIndex emotionIndex : option Z) (w : World) :
  charaMeta !! character = None ->
  character ∉ Object_prototype ->
  generateTextBoxImage host charaMeta textConfigs character userText
      backgroundIndex emotionIndex tt w
    = (Throw (Error ("Unknown character: " ++ character)), tt, w).
Proof.
  intros H1 H2. unfold generateTextBoxImage.
  rewrite (proj2 (js_get_undefined charaMeta character) (conj H1 H2)). reflexivity.
Qed.

(** A character that the catalog does not hold but every object
    inherits passes the guard: the request goes on to the indices and to
    [generateBaseImage]. *)
Lemma generateTextBoxImage_guard_inherited (host : Host)
    (charaMeta : gmap string CharacterMeta) (textConfigs : gmap string (list TextConfig))
    (character : string) (userText : jsstring) (backgroundIndex emotionIndex : option Z) :
  charaMeta !! character = None ->
  character ∈ Object_prototype ->
  generateTextBoxImage host charaMeta textConfigs character userText
      backgroundIndex emotionIndex
    = (let* bgIndex := background_or_random host backgroundIndex in
       let* baseImage :=
         call Base.init
           (generateBaseImage host charaMeta textConfigs character bgIndex
              (emotion_or_random host charaMeta character emotionIndex)) in
       call Draw.init
         (drawUserText host baseImage userText USER_TEXT_BOX_RECT USER_TEXT_FONT_SIZE
            (FontFile (fontName_of charaMeta character)))).
Proof.
  intros H1 H2. unfold generateTextBoxImage, js_get. rewrite H1.
  rewrite bool_decide_eq_true_2 by assumption. reflexivity.
Qed.

(** C5 at the character id "constructor", which the catalog does not
    hold: [charaMeta["constructor"]] is the inherited constructor, the
    guard lets the request through, the background is loaded and released
    again, and the error is that of the missing character file. *)
Theorem generateTextBoxImage_inherited_key :
  sample_charaMeta !! "constructor"%string = None /\
  exists w',
    generateTextBoxImage (sample_host rgba_image false) sample_charaMeta sample_textConfigs
        "constructor" [72; 105] (Some 1) None tt (world_loaded None)
      = (Throw (Error "unable to open file for read"), tt, w') /\
    events w' = [Acquire 0; Release 0].
Proof.
  split; [reflexivity|]. eexists. split; vm_compute; reflexivity.
Qed.

(** ** Handles *)

Lemma dispose_quietly_ok {L : Type} (host : Host) (h : Handle) (l : L) (w : World) :
  dispose_quietly host h l w =
    (Ok tt, l, mkWorld (globalState w) (vips w) (next_handle w) (events w ++ [Release (hid h)])).
Proof.
  unfold dispose_quietly, try_catch, vips_dispose, bind, log. simpl.
  destruct (dispose_fault host (hid h)); reflexivity.
Qed.

Lemma dispose_if_set_ok {L : Type} (host : Host) (v : option Handle) (l : L) (w : World) :
  exists w', dispose_if_set host v l w = (Ok tt, l, w') /\ vips w' = vips w.
Proof.
  destruct v as [h|]; simpl.
  - rewrite dispose_quietly_ok. eexists. split; reflexivity.
  - eexists. split; reflexivity.
Qed.

(** The [finally] blocks run to their end whatever the disposals do. *)
Lemma drawUserText_finally_ok (host : Host) (l : Draw.Locals) (w : World) :
  exists w', drawUserText_finally host l w = (Ok tt, l, w') /\ vips w' = vips w.
Proof.
  unfold drawUserText_finally, bind, read.
  destruct (dispose_if_set_ok host (Draw.result l) l w) as (w1 & -> & E1).
  destruct (dispose_if_set_ok host (Draw.textImage l) l w1) as (w2 & -> & E2).
  destruct (dispose_if_set_ok host (Draw.image l) l w2) as (w3 & -> & E3).
  exists w3. split; [reflexivity|congruence].
Qed.

Lemma generateBaseImage_finally_ok (host : Host) (l : Base.Locals) (w : World) :
  exists w', generateBaseImage_finally host l w = (Ok tt, l, w') /\ vips w' = vips w.
Proof.
  unfold generateBaseImage_finally, bind, read.
  destruct (dispose_if_set_ok host (Base.result l) l w) as (w1 & -> & E1).
  destruct (dispose_if_set_ok host (Base.charImage l) l w1) as (w2 & -> & E2).
  destruct (dispose_if_set_ok host (Base.bgImage l) l w2) as (w3 & -> & E3).
  exists w3. split; [reflexivity|congruence].
Qed.

(** ** The raster-engine gate along the pipeline *)

Lemma await_getVips_ready {L : Type} (l : L) (w : World) :
  vipsInstance (vips w) = true -> await_getVips (L := L) l w = (Ok tt, l, w).
Proof.
  destruct w as [gs v n ev]. simpl. intros H.
  unfold await_getVips, getVips, vips_enter. simpl. rewrite H. reflexivity.
Qed.

Lemma await_getVips_ok {L : Type} (l l' : L) (w w' : World) :
  await_getVips l w = (Ok tt, l', w') -> vipsInstance (vips w') = true.
Proof.
  destruct w as [gs [pr inst calls] n ev].
  unfold await_getVips, getVips, vips_enter, vips_settle, vips_resume. simpl.
  destruct inst; simpl.
  - intros [= <- <-]. reflexivity.
  - destruct pr as [[err|]| |err]; simpl; intros [= <- <-]; reflexivity.
Qed.

Create HintDb keeps.

Lemma keeps_ret {L A : Type} (a : A) : keeps_vips (ret (L := L) a).
Proof. intros l w. reflexivity. Qed.

Lemma keeps_throw {L A : Type} (err : JsError) : keeps_vips (throw (L := L) (A := A) err).
Proof. intros l w. reflexivity. Qed.

Lemma keeps_bind {L A B : Type} (m : M L A) (k : A -> M L B) :
  keeps_vips m -> (forall a, keeps_vips (k a)) -> keeps_vips (bind m k).
Proof.
  intros Hm Hk l w. unfold bind. specialize (Hm l w).
  destruct (m l w) as [[[a|err] l1] w1]; simpl in *; [|assumption].
  rewrite <- Hm. apply Hk.
Qed.

Lemma keeps_try_catch {L A : Type} (m : M L A) (h : JsError -> M L A) :
  keeps_vips m -> (forall err, keeps_vips (h err)) -> keeps_vips (try_catch m h).
Proof.
  intros Hm Hh l w. unfold try_catch. specialize (Hm l w).
  destruct (m l w) as [[[a|err] l1] w1]; simpl in *; [assumption|].
  rewrite <- Hm. apply Hh.
Qed.

Lemma keeps_try_finally {L A : Type} (m : M L A) (c : M L unit) :
  keeps_vips m -> keeps_vips c -> keeps_vips (try_finally m c).
Proof.
  intros Hm Hc l w. unfold try_finally. specialize (Hm l w).
  destruct (m l w) as [[r l1] w1]. specialize (Hc l1 w1).
  destruct (c l1 w1) as [[[u|err] l2] w2]; simpl in *; congruence.
Qed.

Lemma keeps_of_res {L A : Type} (r : res A) : keeps_vips (of_res (L := L) r).
Proof. intros l w. reflexivity. Qed.

Lemma keeps_read {L X : Type} (var : L -> X) : keeps_vips (read var).
Proof. intros l w. reflexivity. Qed.

Lemma keeps_assign {L : Type} (update : L -> L) : keeps_vips (assign update).
Proof. intros l w. reflexivity. Qed.

Lemma keeps_log {L : Type} (e : Event) : keeps_vips (log (L := L) e).
Proof. intros l w. reflexivity. Qed.

Lemma keeps_alloc {L : Type} (img : Image) : keeps_vips (alloc (L := L) img).
Proof. intros l w. reflexivity. Qed.

Lemma keeps_deref {L : Type} (v : option Handle) : keeps_vips (deref (L := L) v).
Proof. destruct v; intros l w; reflexivity. Qed.

Lemma keeps_resvg {L : Type} (host : Host) :
  keeps_vips (await_ensureResvgInitialized (L := L) host).
Proof.
  intros l w. unfold await_ensureResvgInitialized.
  destruct (ensureResvgInitialized _ _). reflexivity.
Qed.

#[export] Hint Resolve keeps_ret keeps_throw keeps_of_res keeps_read keeps_assign
  keeps_log keeps_alloc keeps_deref keeps_resvg : keeps.

Ltac keeps_step :=
  first
    [ solve [auto with keeps]
    | apply keeps_bind; [|intros ?]
    | apply keeps_try_catch; [|intros ?]
    | apply keeps_try_finally ].

Lemma keeps_for_of {L X : Type} (xs : list X) (body : X -> M L unit) :
  (forall x, keeps_vips (body x)) -> keeps_vips (for_of xs body).
Proof.
  intros H. induction xs as [|x xs IH]; simpl; [auto with keeps|].
  apply keeps_bind; auto.
Qed.

Lemma keeps_newFromFile {L : Type} (host : Host) (p : path) :
  keeps_vips (vips_newFromFile (L := L) host p).
Proof. unfold vips_newFromFile. repeat keeps_step. Qed.

Lemma keeps_newFromBuffer {L : Type} (host : Host) (b : Buffer) :
  keeps_vips (vips_newFromBuffer (L := L) host b).
Proof. unfold vips_newFromBuffer. repeat keeps_step. Qed.

Lemma keeps_composite2 {L : Type} (host : Host) (base overlay : Handle) (x y : Z) :
  keeps_vips (vips_composite2 (L := L) host base overlay x y).
Proof. unfold vips_composite2. repeat keeps_step. Qed.

Lemma keeps_dispose_quietly {L : Type} (host : Host) (h : Handle) :
  keeps_vips (dispose_quietly (L := L) host h).
Proof. intros l w. rewrite dispose_quietly_ok. reflexivity. Qed.

#[export] Hint Resolve keeps_newFromFile keeps_newFromBuffer keeps_composite2
  keeps_dispose_quietly : keeps.

Lemma keeps_name_caption (host : Host) (fontBuffer : Buffer) (config : TextConfig) :
  keeps_vips (name_caption host fontBuffer config).
Proof.
  unfold name_caption, resvg_render. destruct (truthy_string (text config));
    cbv zeta; repeat keeps_step.
Qed.

Lemma keeps_name_captions (host : Host) (charaMeta : gmap string CharacterMeta)
    (textConfigs : gmap string (list TextConfig)) (character : string) :
  keeps_vips (name_captions host charaMeta textConfigs character).
Proof.
  unfold name_captions. destruct (js_get textConfigs character); repeat keeps_step.
  apply keeps_for_of. intros config. apply keeps_name_caption.
Qed.

Lemma keeps_generateBaseImage_try (host : Host) (charaMeta : gmap string CharacterMeta)
    (textConfigs : gmap string (list TextConfig)) (character : string)
    (backgroundIndex emotionIndex : option Z) :
  keeps_vips
    (generateBaseImage_try host charaMeta textConfigs character backgroundIndex emotionIndex).
Proof.
  unfold generateBaseImage_try, vips_writeToBuffer.
  repeat first [apply keeps_name_captions | keeps_step].
Qed.

(** Once [generateBaseImage] has returned, the engine has been handed
    out. *)
Lemma generateBaseImage_engine_ready (host : Host) (charaMeta : gmap string CharacterMeta)
    (textConfigs : gmap string (list TextConfig)) (character : string)
    (backgroundIndex emotionIndex : option Z) (l l' : Base.Locals) (w w' : World)
    (baseImage : Buffer) :
  generateBaseImage host charaMeta textConfigs character backgroundIndex emotionIndex l w
    = (Ok baseImage, l', w') ->
  vipsInstance (vips w') = true.
Proof.
  unfold generateBaseImage, bind.
  destruct (await_getVips l w) as [[[[]|err] l0] w0] eqn:E0; [|discriminate].
  apply await_getVips_ok in E0.
  pose proof (keeps_generateBaseImage_try host charaMeta textConfigs character
                backgroundIndex emotionIndex l0 w0) as Hk.
  unfold try_finally.
  destruct (generateBaseImage_try _ _ _ _ _ _ l0 w0) as [[r l1] w1]. simpl in Hk.
  destruct (generateBaseImage_finally_ok host l1 w1) as (w2 & -> & E2).
  intros [= -> <- <-]. congruence.
Qed.

(** ** The caption stage is best effort *)

(** With the engine at hand [drawUserText] always returns: the bytes the
    [try] block made, or the bytes it was given when the block threw. *)
Lemma drawUserText_fallback (host : Host) (baseImage : Buffer) (userText : jsstring)
    (boxRect : (Z * Z) * (Z * Z)) (initialFontSize : Z) (fontPath : path)
    (l : Draw.Locals) (w : World) :
  vipsInstance (vips w) = true ->
  exists r l' w',
    drawUserText host baseImage userText boxRect initialFontSize fontPath l w
      = (Ok r, l', w') /\
    (forall err l1 w1,
       drawUserText_try host baseImage userText boxRect initialFontSize fontPath l w
         = (Throw err, l1, w1) -> r = baseImage) /\
    (forall out l1 w1,
       drawUserText_try host baseImage userText boxRect initialFontSize fontPath l w
         = (Ok out, l1, w1) -> r = out).
Proof.
  intros Hready. unfold drawUserText, bind.
  rewrite (await_getVips_ready l w Hready). unfold try_finally, try_catch.
  destruct (drawUserText_try host baseImage userText boxRect initialFontSize fontPath l w)
    as [[[out|err] l1] w1].
  - destruct (drawUserText_finally_ok host l1 w1) as (w2 & -> & _).
    exists out, l1, w2. split; [reflexivity|]. split; intros; congruence.
  - unfold ret.
    destruct (drawUserText_finally_ok host l1 w1) as (w2 & -> & _).
    exists baseImage, l1, w2. split; [reflexivity|]. split; intros; congruence.
Qed.

(** C3: for a character the guard lets through and once the indices are
    settled, an error of [generateBaseImage] is the error of the whole
    request; when [generateBaseImage] returns, the request returns as
    well, with the bytes of the base image whenever anything in the [try]
    block of [drawUserText] throws (gate, decode, widening, font read,
    render, composite or encode), and with the captioned bytes otherwise. *)
Theorem caption_stage_is_best_effort (host : Host) (charaMeta : gmap string CharacterMeta)
    (textConfigs : gmap string (list TextConfig)) (character : string) (userText : jsstring)
    (backgroundIndex emotionIndex bgIndex : option Z) (w w0 : World) :
  js_get charaMeta character <> Undefined ->
  background_or_random host backgroundIndex tt w = (Ok bgIndex, tt, w0) ->
  let emIndex := emotion_or_random host charaMeta character emotionIndex in
  let fontPath := FontFile (fontName_of charaMeta character) in
  (forall err l1 w1,
     generateBaseImage host charaMeta textConfigs character bgIndex emIndex Base.init w0
       = (Throw err, l1, w1) ->
     generateTextBoxImage host charaMeta textConfigs character userText
         backgroundIndex emotionIndex tt w
       = (Throw err, tt, w1)) /\
  (forall baseImage l1 w1,
     generateBaseImage host charaMeta textConfigs character bgIndex emIndex Base.init w0
       = (Ok baseImage, l1, w1) ->
     exists r w2,
       generateTextBoxImage host charaMeta textConfigs character userText
           backgroundIndex emotionIndex tt w
         = (Ok r, tt, w2) /\
       (forall err l2 w',
          drawUserText_try host baseImage userText USER_TEXT_BOX_RECT USER_TEXT_FONT_SIZE
              fontPath Draw.init w1
            = (Throw err, l2, w') -> r = baseImage) /\
       (forall out l2 w',
          drawUserText_try host baseImage userText USER_TEXT_BOX_RECT USER_TEXT_FONT_SIZE
              fontPath Draw.init w1
            = (Ok out, l2, w') -> r = out)).
Proof.
  intros Hknown Hbg emIndex fontPath.
  assert (Hunfold :
    generateTextBoxImage host charaMeta textConfigs character userText
        backgroundIndex emotionIndex tt w
    = match generateBaseImage host charaMeta textConfigs character bgIndex emIndex
              Base.init w0 with
      | (Ok baseImage, _, w1) =>
          match drawUserText host baseImage userText USER_TEXT_BOX_RECT
                  USER_TEXT_FONT_SIZE fontPath Draw.init w1 with
          | (r, _, w2) => (r, tt, w2)
          end
      | (Throw err, _, w1) => (Throw err, tt, w1)
      end).
  { unfold generateTextBoxImage.
    destruct (js_get charaMeta character) as [|meta|name] eqn:E; [contradiction| |];
      unfold bind; rewrite Hbg; unfold call; fold emIndex;
      destruct (generateBaseImage host charaMeta textConfigs character bgIndex emIndex
                  Base.init w0) as [[[b|err] l1] w1]; reflexivity. }
  split.
  - intros err l1 w1 Hbase. rewrite Hunfold, Hbase. reflexivity.
  - intros baseImage l1 w1 Hbase. rewrite Hunfold, Hbase.
    pose proof (generateBaseImage_engine_ready _ _ _ _ _ _ _ _ _ _ _ Hbase) as Hready.
    destruct (drawUserText_fallback host baseImage userText USER_TEXT_BOX_RECT
                USER_TEXT_FONT_SIZE fontPath Draw.init w1 Hready)
      as (r & l' & w2 & -> & Hthrow & Hok).
    exists r, w2. split; [reflexivity|]. split; assumption.
Qed.

Lemma caption_stage_is_best_effort_witness :
  let host := sample_host rgba_image false in
  let w := world_loaded None in
  js_get sample_charaMeta "ema" <> Undefined /\
  background_or_random host (Some 1) tt w = (Ok (Some 1), tt, w) /\
  (forall err l1 w1,
     generateBaseImage host sample_charaMeta sample_textConfigs "ema" (Some 1)
         (emotion_or_random host sample_charaMeta "ema" (Some 1)) Base.init w
       = (Throw err, l1, w1) ->
     generateTextBoxImage host sample_charaMeta sample_textConfigs "ema" [72; 105]
         (Some 1) (Some 1) tt w
       = (Throw err, tt, w1)) /\
  (forall baseImage l1 w1,
     generateBaseImage host sample_charaMeta sample_textConfigs "ema" (Some 1)
         (emotion_or_random host sample_charaMeta "ema" (Some 1)) Base.init w
       = (Ok baseImage, l1, w1) ->
     exists r w2,
       generateTextBoxImage host sample_charaMeta sample_textConfigs "ema" [72; 105]
           (Some 1) (Some 1) tt w
         = (Ok r, tt, w2) /\
       (forall err l2 w',
          drawUserText_try host baseImage [72; 105] USER_TEXT_BOX_RECT USER_TEXT_FONT_SIZE
              (FontFile (fontName_of sample_charaMeta "ema")) Draw.init w1
            = (Throw err, l2, w') -> r = baseImage) /\
       (forall out l2 w',
          drawUserText_try host baseImage [72; 105] USER_TEXT_BOX_RECT USER_TEXT_FONT_SIZE
              (FontFile (fontName_of sample_charaMeta "ema")) Draw.init w1
            = (Ok out, l2, w') -> r = out)).
Proof.
  intros host w.
  assert (H1 : js_get sample_charaMeta "ema" <> Undefined) by (vm_compute; discriminate).
  assert (H2 : background_or_random host (Some 1) tt w = (Ok (Some 1), tt, w))
    by reflexivity.
  split; [exact H1|]. split; [exact H2|].
  exact (caption_stage_is_best_effort host sample_charaMeta sample_textConfigs "ema"
           [72; 105] (Some 1) (Some 1) (Some 1) w w H1 H2).
Defined.

(** ** The operands of the final composite *)


Lemma await_getVips_events {L : Type} (l l' : L) (w w' : World) (r : res unit) :
  await_getVips l w = (r, l', w') ->
  l' = l /\ events w' = events w /\ next_handle w' = next_handle w.
Proof.
  unfold await_getVips. destruct (getVips (vips w)) as [r0 g].
  intros [= <- <- <-]. repeat split; reflexivity.
Qed.




Ltac split_host H :=
  match type of H with
  | context [match ensureResvgInitialized ?b ?g with _ => _ end] =>
      destruct (ensureResvgInitialized b g) as [[[]|?] ?]
  | context [match newFromBuffer ?h ?b with _ => _ end] =>
      let E := fresh "Hdecode" in destruct (newFromBuffer h b) as [?|?] eqn:E
  | context [match readFileSync ?h ?p with _ => _ end] =>
      destruct (readFileSync h p) as [?|?]
  | context [match Resvg_render ?h ?d ?f with _ => _ end] =>
      destruct (Resvg_render h d f) as [?|?]
  | context [match bandjoin_fault ?h ?i with _ => _ end] =>
      destruct (bandjoin_fault h i) as [?|]
  | context [match composite2 ?h ?b ?o ?x ?y with _ => _ end] =>
      destruct (composite2 h b o x y) as [?|?]
  | context [match writeToBuffer ?h ?i ?s with _ => _ end] =>
      destruct (writeToBuffer h i s) as [?|?]
  | context [if hasAlpha ?i then _ else _] =>
      let E := fresh "Halpha" in destruct (hasAlpha i) eqn:E
  end.





(** ** Handles of the caption stage *)

Ltac run_all_in H :=
  cbv beta iota zeta delta
    [bind ret throw try_catch try_finally of_res read assign log alloc deref
     vips_newFromBuffer vips_newFromFile vips_bandjoin vips_composite2
     vips_writeToBuffer resvg_render await_ensureResvgInitialized
     drawUserText_finally dispose_if_set dispose_quietly vips_dispose
     Draw.init Draw.set_image Draw.set_textImage Draw.set_result Draw.image
     Draw.textImage Draw.result events next_handle globalState vips pixels hid negb] in H.

Ltac split_all_host H :=
  first
    [ split_host H
    | match type of H with
      | context [match dispose_fault ?h ?i with _ => _ end] =>
          destruct (dispose_fault h i) as [?|]
      end ].

Lemma drawUserText_releases_once (host : Host) (baseImage : Buffer) (userText : jsstring)
    (boxRect : (Z * Z) * (Z * Z)) (initialFontSize : Z) (fontPath : path)
    (l' : Draw.Locals) (w w' : World) (r : res Buffer) :
  vipsInstance (vips w) = true ->
  (forall b img, newFromBuffer host b = Ok img -> hasAlpha img = true) ->
  drawUserText host baseImage userText boxRect initialFontSize fontPath Draw.init w
    = (r, l', w') ->
  exists delta,
    events w' = events w ++ delta /\
    forall h, released h delta = acquired h delta /\ (acquired h delta <= 1)%nat.
Proof.
  intros Hready Hall H. destruct boxRect as [[x1 y1] [x2 y2]].
  unfold drawUserText in H. unfold bind at 1 in H.
  rewrite (await_getVips_ready _ w Hready) in H.
  unfold drawUserText_try in H. run_all_in H.
  repeat (split_all_host H; run_all_in H).
  all: try match goal with
    | Hd : newFromBuffer _ _ = Ok ?i, Ha : hasAlpha ?i = false |- _ =>
        rewrite (Hall _ _ Hd) in Ha; discriminate
    end.
  all: injection H as <- <- <-; cbv [events]; rewrite <- ?app_assoc.
  all: (eexists; split; [reflexivity || (rewrite app_nil_r; reflexivity)|]).
  all: intros h; cbv [acquired released List.filter event_eqb length app].
  all: repeat match goal with
    | |- context [Nat.eqb ?a ?b] => destruct (Nat.eqb_spec a b)
    end; simpl; try lia.
Qed.

(** Whenever the decoded base image has no alpha channel and widening
    succeeds, the handle made by [newFromBuffer] is lost: whatever
    happens next, nothing disposes of it. *)
Lemma widening_drops_handle (host : Host) (baseImage : Buffer) (userText : jsstring)
    (boxRect : (Z * Z) * (Z * Z)) (initialFontSize : Z) (fontPath : path)
    (l' : Draw.Locals) (w w' : World) (r : res Buffer) (g : ResvgGlobal) (img : Image) :
  vipsInstance (vips w) = true ->
  ensureResvgInitialized (resvg_backing host) (globalState w) = (Ok tt, g) ->
  newFromBuffer host baseImage = Ok img ->
  hasAlpha img = false ->
  bandjoin_fault host img = None ->
  drawUserText host baseImage userText boxRect initialFontSize fontPath Draw.init w
    = (r, l', w') ->
  exists delta,
    events w' = events w ++ delta /\
    acquired (next_handle w) delta = 1%nat /\ released (next_handle w) delta = 0%nat.
Proof.
  intros Hready Hresvg Hdecode Halpha Hjoin H. destruct boxRect as [[x1 y1] [x2 y2]].
  unfold drawUserText in H. unfold bind at 1 in H.
  rewrite (await_getVips_ready _ w Hready) in H.
  destruct w as [gs v n ev]. simpl in Hresvg |- *.
  unfold drawUserText_try in H. run_all_in H.
  rewrite Hresvg in H. run_all_in H.
  rewrite Hdecode in H. run_all_in H.
  rewrite Halpha in H. run_all_in H.
  rewrite Hjoin in H. run_all_in H.
  repeat (split_all_host H; run_all_in H).
  all: injection H as <- <- <-; cbv [events]; rewrite <- ?app_assoc.
  all: (eexists; split; [reflexivity|]).
  all: cbv [acquired released List.filter event_eqb length app].
  all: repeat match goal with
    | |- context [Nat.eqb ?a ?b] => destruct (Nat.eqb_spec a b)
    end; simpl; try lia.
Qed.

(** C2 at a base image without alpha channel, and at a name caption whose
    composite fails.  In the first run every operation succeeds, the
    image decoded from the base bytes is handle 0, widening makes handle 1
    and overwrites the variable, and handle 0 is never disposed of.  In
    the second run the rendered name image is handle 3, the composite
    throws, and the [finally] block does not know the handle. *)
Theorem handles_left_behind :
  (exists l' w',
     drawUserText (sample_host rgb_image false) base_bytes [72; 105]
         USER_TEXT_BOX_RECT USER_TEXT_FONT_SIZE (FontFile "font3.ttf") Draw.init world_ready
       = (Ok avif_bytes, l', w') /\
     acquired 0 (events w') = 1%nat /\ released 0 (events w') = 0%nat) /\
  (exists w',
     generateTextBoxImage (sample_host rgba_image true) sample_charaMeta sample_textConfigs
         "ema" [72; 105] (Some 1) (Some 1) tt (world_loaded None)
       = (Throw (Error "composite: unable to blend"), tt, w') /\
     acquired 3 (events w') = 1%nat /\ released 3 (events w') = 0%nat).
Proof.
  split.
  - eexists _, _. split; [vm_compute; reflexivity|]. split; vm_compute; reflexivity.
  - eexists. split; [vm_compute; reflexivity|]. split; vm_compute; reflexivity.
Qed.

(* ================================================================= *)
(** * Further properties of the sources *)

(** ** Line wrapping: content and line lengths *)

Lemma js_ge_num (a b : Z) : js_ge (num a) (num b) = (b <=? a).
Proof.
  unfold js_ge, js_le, num, Qle_bool. simpl. now rewrite !Z.mul_1_r.
Qed.

Lemma js_ge_length {A : Type} (s : list A) (k : Z) :
  js_ge (js_length s) (num k) = (k <=? Z.of_nat (length s)).
Proof. apply js_ge_num. Qed.

Lemma string_iterator_unfold (u v : Z) (rest : jsstring) :
  string_iterator (u :: v :: rest) =
    if is_high_surrogate u && is_low_surrogate v
    then [u; v] :: string_iterator rest
    else [u] :: string_iterator (v :: rest).
Proof. reflexivity. Qed.

Lemma string_iterator_sizes (s : jsstring) :
  Forall (fun c => (1 <= length c <= 2)%nat) (string_iterator s).
Proof.
  assert (H : forall (n : nat) (t : jsstring), (length t <= n)%nat ->
             Forall (fun c => (1 <= length c <= 2)%nat) (string_iterator t)).
  { induction n as [|n IH]; intros t Hl.
    - destruct t; [constructor|simpl in Hl; lia].
    - destruct t as [|u [|v rest]].
      + constructor.
      + constructor; [simpl; lia|constructor].
      + rewrite string_iterator_unfold. simpl in Hl.
        destruct (is_high_surrogate u && is_low_surrogate v).
        * constructor; [simpl; lia|]. apply IH. lia.
        * constructor; [simpl; lia|]. apply IH. simpl. lia. }
  apply (H (length s)). lia.
Qed.

Lemma string_iterator_bmp (s : jsstring) :
  bmp_only s = true -> string_iterator s = map (fun u => [u]) s.
Proof.
  induction s as [|u s IH]; intros Hb; [reflexivity|].
  unfold bmp_only in Hb. simpl in Hb.
  apply andb_true_iff in Hb as [Hu Hrest]. apply negb_true_iff in Hu.
  destruct s as [|v rest]; [reflexivity|].
  rewrite string_iterator_unfold, Hu. simpl andb. cbv iota.
  rewrite IH by exact Hrest. reflexivity.
Qed.

(** The lines are groups of consecutive characters. *)
Lemma wrap_from_groups (m : jsnum) (chars cur_chars : list jsstring) :
  Forall (fun c => c <> []) (cur_chars ++ chars) ->
  exists groups : list (list jsstring),
    concat groups = cur_chars ++ chars /\
    map (fun g => concat g) groups = wrap_from m chars (concat cur_chars).
Proof.
  revert cur_chars. induction chars as [|c rest IH]; intros cur_chars Hne; simpl.
  - rewrite app_nil_r in Hne. destruct cur_chars as [|d ds].
    + exists []. split; reflexivity.
    + exists [d :: ds]. split; [simpl; now rewrite !app_nil_r|].
      inversion Hne as [|? ? Hd _]; subst. simpl.
      destruct d as [|u d]; [congruence|]. simpl. rewrite ?app_nil_r. reflexivity.
  - destruct (js_ge (js_length (concat cur_chars)) m).
    + destruct (IH [c]) as (groups & E1 & E2).
      { apply Forall_app in Hne as [_ Hne]. exact Hne. }
      exists (cur_chars :: groups). split.
      * simpl. rewrite E1. reflexivity.
      * simpl. simpl in E2. rewrite app_nil_r in E2. now rewrite E2.
    + destruct (IH (cur_chars ++ [c])) as (groups & E1 & E2).
      { rewrite <- app_assoc. exact Hne. }
      exists groups. split.
      * rewrite E1, <- app_assoc. reflexivity.
      * rewrite E2, concat_app. simpl. now rewrite app_nil_r.
Qed.

Lemma string_iterator_nonempty (s : jsstring) :
  Forall (fun c => c <> []) (string_iterator s).
Proof.
  eapply Forall_impl; [apply string_iterator_sizes|].
  intros c Hc ->. simpl in Hc. lia.
Qed.

(** X1: whatever [maxCharsPerLine] is, the lines are consecutive groups
    of whole characters of the text, so that no surrogate pair is split
    and the lines put together give the text back. *)
Theorem wrap_lines_breaks_between_characters (maxCharsPerLine : jsnum) (userText : jsstring) :
  (exists groups : list (list jsstring),
     concat groups = string_iterator userText /\
     wrap_lines maxCharsPerLine userText = map (fun g => concat g) groups) /\
  concat (wrap_lines maxCharsPerLine userText) = userText.
Proof.
  destruct (wrap_from_groups maxCharsPerLine (string_iterator userText) [])
    as (groups & E1 & E2).
  { apply string_iterator_nonempty. }
  simpl in E1, E2. rewrite wrap_lines_from, <- E2. split.
  - exists groups. split; [exact E1|reflexivity].
  - transitivity (concat (string_iterator userText));
      [|apply string_iterator_concat]. rewrite <- E1.
    clear. induction groups as [|g gs IH]; simpl; [reflexivity|].
    rewrite concat_app, IH. reflexivity.
Qed.

Lemma Forall_singletons (P : jsstring -> Prop) (s : jsstring) :
  (forall u, P [u]) -> Forall P (map (fun u => [u]) s).
Proof. intros H. induction s; simpl; constructor; auto. Qed.

Lemma wrap_from_cons (m : jsnum) (c : jsstring) (rest : list jsstring) (cur : jsstring) :
  wrap_from m (c :: rest) cur =
    if js_ge (js_length cur) m then cur :: wrap_from m rest c
    else wrap_from m rest (cur ++ c).
Proof. reflexivity. Qed.

Lemma wrap_from_sizes (k : Z) (cmax : nat) (chars : list jsstring) (cur : jsstring) :
  1 <= k ->
  Forall (fun c => (1 <= length c <= cmax)%nat) chars ->
  Z.of_nat (length cur) <= k + Z.of_nat cmax - 1 ->
  Forall (fun l => 1 <= Z.of_nat (length l) <= k + Z.of_nat cmax - 1)
    (wrap_from (num k) chars cur) /\
  (forall (i : nat) (l : jsstring),
     wrap_from (num k) chars cur !! i = Some l ->
     is_Some (wrap_from (num k) chars cur !! S i) ->
     k <= Z.of_nat (length l)).
Proof.
  intros Hk. revert cur. induction chars as [|c rest IH]; intros cur Hchars Hcur.
  - destruct cur as [|u cur]; simpl.
    + split; [constructor|]. intros i l H. destruct i; discriminate.
    + split.
      * constructor; [|constructor]. simpl in *. lia.
      * intros i l _ [x Hx]. destruct i; discriminate.
  - inversion Hchars as [|? ? Hc Hrest]; subst.
    rewrite wrap_from_cons, js_ge_length.
    destruct (Z.leb_spec k (Z.of_nat (length cur))) as [Hge|Hlt].
    + destruct (IH c Hrest ltac:(lia)) as [IH1 IH2]. split.
      * constructor; [lia|exact IH1].
      * intros [|i] l Hl Hnext; simpl in *.
        -- injection Hl as <-. exact Hge.
        -- eapply IH2; eauto.
    + apply IH; [exact Hrest|]. rewrite length_app. lia.
Qed.

(** X2: for an integer [maxCharsPerLine >= 1] every line has at least
    one and at most [maxCharsPerLine + 1] code units, at most
    [maxCharsPerLine] when the text has no surrogate pair, and every line
    that is followed by another one is full. *)
Theorem wrap_lines_line_lengths (k : Z) (userText : jsstring) (i : nat) (line : jsstring) :
  1 <= k ->
  wrap_lines (num k) userText !! i = Some line ->
  1 <= Z.of_nat (length line) <= k + 1 /\
  (bmp_only userText = true -> Z.of_nat (length line) <= k) /\
  (is_Some (wrap_lines (num k) userText !! S i) -> k <= Z.of_nat (length line)).
Proof.
  intros Hk Hline. rewrite wrap_lines_from in *.
  destruct (wrap_from_sizes k 2 (string_iterator userText) [] Hk
              (string_iterator_sizes userText) ltac:(simpl; lia)) as [H1 H2].
  split; [|split].
  - pose proof (Forall_lookup_1 _ _ _ _ H1 Hline) as H. simpl in H. lia.
  - intros Hbmp. rewrite (string_iterator_bmp _ Hbmp) in Hline.
    assert (Hone : Forall (fun c : jsstring => (1 <= length c <= 1)%nat)
                     (map (fun u => [u]) userText)).
    { apply Forall_singletons. intros u. simpl. lia. }
    destruct (wrap_from_sizes k 1 _ [] Hk Hone ltac:(simpl; lia)) as [H3 _].
    pose proof (Forall_lookup_1 _ _ _ _ H3 Hline) as H. simpl in H. lia.
  - intros Hnext. eapply H2; eauto.
Qed.

Lemma wrap_lines_line_lengths_witness :
  1 <= 2 /\
  wrap_lines (num 2) [65; 55357; 56832; 66; 67] !! 0%nat = Some [65; 55357; 56832] /\
  1 <= Z.of_nat (length [65; 55357; 56832]) <= 2 + 1 /\
  (bmp_only [65; 55357; 56832; 66; 67] = true -> Z.of_nat (length [65; 55357; 56832]) <= 2) /\
  (is_Some (wrap_lines (num 2) [65; 55357; 56832; 66; 67] !! 1%nat) ->
   2 <= Z.of_nat (length [65; 55357; 56832])).
Proof.
  split; [lia|]. split; [reflexivity|].
  apply (wrap_lines_line_lengths 2 [65; 55357; 56832; 66; 67] 0 [65; 55357; 56832]);
    [lia|reflexivity].
Defined.

(** ** Line wrapping and the height estimate *)

Lemma ceil_div_unique (n k q : Z) :
  0 < k -> (q - 1) * k < n <= q * k -> (n + k - 1) / k = q.
Proof.
  intros Hk Hn. symmetry. apply (Z.div_unique _ _ _ (n + k - 1 - q * k)); lia.
Qed.

Lemma wrap_from_count (k : Z) (chars : list jsstring) (cur : jsstring) :
  1 <= k ->
  Forall (fun c => length c = 1%nat) chars ->
  Z.of_nat (length cur) <= k ->
  Z.of_nat (length (wrap_from (num k) chars cur))
    = (Z.of_nat (length cur) + Z.of_nat (length chars) + k - 1) / k.
Proof.
  intros Hk. revert cur. induction chars as [|c rest IH]; intros cur Hchars Hcur.
  - destruct cur as [|u cur]; simpl in Hcur |- *.
    + symmetry. apply Z.div_small. lia.
    + symmetry. apply ceil_div_unique; lia.
  - inversion Hchars as [|? ? Hc Hrest]; subst.
    rewrite wrap_from_cons, js_ge_length.
    destruct (Z.leb_spec k (Z.of_nat (length cur))) as [Hge|Hlt].
    + simpl length. rewrite Nat2Z.inj_succ, (IH c Hrest) by lia. rewrite Hc.
      replace (Z.of_nat (length cur) + Z.of_nat (S (length rest)) + k - 1)
        with (Z.of_nat 1 + Z.of_nat (length rest) + k - 1 + 1 * k) by lia.
      rewrite Z.div_add by lia. lia.
    + rewrite (IH (cur ++ c) Hrest) by (rewrite length_app; lia).
      rewrite length_app, Hc. simpl length. f_equal. lia.
Qed.

Lemma wrap_from_count_le (k : Z) (chars : list jsstring) (cur : jsstring) :
  1 <= k ->
  Z.of_nat (length (wrap_from (num k) chars cur))
    <= (Z.of_nat (length cur) + Z.of_nat (length (concat chars)) + k - 1) / k.
Proof.
  intros Hk. revert cur. induction chars as [|c rest IH]; intros cur.
  - destruct cur as [|u cur]; simpl length.
    + apply Z.div_pos; lia.
    + apply Z.div_le_lower_bound; lia.
  - rewrite wrap_from_cons, js_ge_length. simpl concat. rewrite length_app.
    destruct (Z.leb_spec k (Z.of_nat (length cur))) as [Hge|Hlt].
    + simpl length. rewrite Nat2Z.inj_succ.
      specialize (IH c).
      transitivity
        ((Z.of_nat (length c) + Z.of_nat (length (concat rest)) + k - 1 + 1 * k) / k).
      * rewrite Z.div_add by lia. lia.
      * apply Z.div_le_mono; lia.
    + specialize (IH (cur ++ c)). rewrite length_app in IH.
      replace (Z.of_nat (length cur) + Z.of_nat (length c + length (concat rest))%nat)
        with (Z.of_nat (length cur + length c)%nat + Z.of_nat (length (concat rest)))
        by lia.
      exact IH.
Qed.

Lemma wrap_lines_count_le (k : Z) (userText : jsstring) :
  1 <= k ->
  Z.of_nat (length (wrap_lines (num k) userText))
    <= (Z.of_nat (length userText) + k - 1) / k.
Proof.
  intros Hk. rewrite wrap_lines_from.
  pose proof (wrap_from_count_le k (string_iterator userText) [] Hk) as H.
  rewrite string_iterator_concat in H. exact H.
Qed.

Lemma wrap_lines_count_bmp (k : Z) (userText : jsstring) :
  1 <= k ->
  bmp_only userText = true ->
  Z.of_nat (length (wrap_lines (num k) userText))
    = (Z.of_nat (length userText) + k - 1) / k.
Proof.
  intros Hk Hbmp. rewrite wrap_lines_from, (string_iterator_bmp _ Hbmp).
  rewrite wrap_from_count.
  - rewrite length_map. simpl length. f_equal; lia.
  - exact Hk.
  - apply Forall_singletons. reflexivity.
  - simpl. lia.
Qed.

(** X3: for a limit k >= 1 a text never wraps to more than
    ceil(length / k) lines, the number the font-size search computes,
    and a text without surrogate pairs wraps to exactly that many. *)
Theorem wrap_lines_count (k : Z) (userText : jsstring) :
  1 <= k ->
  Z.of_nat (length (wrap_lines (num k) userText))
    <= (Z.of_nat (length userText) + k - 1) / k /\
  (bmp_only userText = true ->
   Z.of_nat (length (wrap_lines (num k) userText))
     = (Z.of_nat (length userText) + k - 1) / k).
Proof.
  intros Hk. split; [now apply wrap_lines_count_le|].
  intros Hbmp. now apply wrap_lines_count_bmp.
Qed.

Lemma wrap_lines_count_witness :
  1 <= 3 /\
  Z.of_nat (length (wrap_lines (num 3) [72; 101; 55357; 56832; 108; 111; 33]))
    <= (Z.of_nat (length [72; 101; 55357; 56832; 108; 111; 33]) + 3 - 1) / 3 /\
  (bmp_only [72; 101; 55357; 56832; 108; 111; 33] = true ->
   Z.of_nat (length (wrap_lines (num 3) [72; 101; 55357; 56832; 108; 111; 33]))
     = (Z.of_nat (length [72; 101; 55357; 56832; 108; 111; 33]) + 3 - 1) / 3).
Proof.
  split; [lia|].
  apply (wrap_lines_count 3 [72; 101; 55357; 56832; 108; 111; 33]). lia.
Defined.

Lemma Qeq_bool_inject_Z_zero (z : Z) : z <> 0 -> Qeq_bool (inject_Z z) 0 = false.
Proof.
  intros Hz. destruct (Qeq_bool (inject_Z z) 0) eqn:E; [|reflexivity].
  apply Qeq_bool_eq in E. unfold Qeq in E. simpl in E. lia.
Qed.

(** [Math.floor(a / b)] of two integers is the integer quotient. *)
Lemma js_floor_div (a b : Z) :
  0 < b -> js_floor (js_div (num a) (num b)) = num (a / b).
Proof.
  intros Hb. unfold js_div, num. rewrite Qeq_bool_inject_Z_zero by lia.
  unfold js_floor, num. rewrite (Qfloor_comp _ _ (Qred_correct _)), <- Zdiv_Qdiv.
  reflexivity.
Qed.

(** [Math.ceil(a / b)] of two integers. *)
Lemma js_ceil_div (a b : Z) :
  0 < b -> js_ceil (js_div (num a) (num b)) = num ((a + b - 1) / b).
Proof.
  intros Hb. unfold js_div, num. rewrite Qeq_bool_inject_Z_zero by lia.
  unfold js_ceil, num, Qceiling. f_equal. f_equal.
  assert (E : (- Qred (inject_Z a / inject_Z b) == inject_Z (- a) / inject_Z b)%Q).
  { rewrite Qred_correct, inject_Z_opp. unfold Qdiv. ring. }
  rewrite (Qfloor_comp _ _ E), <- Zdiv_Qdiv.
  symmetry. apply ceil_div_unique; [exact Hb|].
  pose proof (Z.div_mod (- a) b ltac:(lia)) as Hdm.
  pose proof (Z.mod_pos_bound (- a) b Hb) as Hr. nia.
Qed.

Lemma js_le_trans (a b c : jsnum) :
  js_le a b = true -> js_le b c = true -> js_le a c = true.
Proof.
  destruct a as [| |p|], b as [| |q|], c as [| |r|]; simpl;
    try discriminate; try reflexivity.
  rewrite !Qle_bool_iff. apply Qle_trans.
Qed.

(** More lines make a higher document. *)
Lemma height_monotone (n1 n2 fontSize : Z) :
  n1 <= n2 -> 0 < fontSize ->
  js_le
    (js_add (js_mul (num n1) (js_mul (num fontSize) (Fin 1.2)))
       (js_mul (num fontSize) (Fin 0.3)))
    (js_add (js_mul (num n2) (js_mul (num fontSize) (Fin 1.2)))
       (js_mul (num fontSize) (Fin 0.3))) = true.
Proof.
  intros Hn Hfs. unfold js_mul, js_add, js_le, num. apply Qle_bool_iff.
  rewrite !Qred_correct. apply Qplus_le_compat; [|apply Qle_refl].
  apply Qmult_le_compat_r; [now rewrite <- Zle_Qle|].
  apply Qmult_le_0_compat; [|discriminate].
  change 0%Q with (inject_Z 0). rewrite <- Zle_Qle. lia.
Qed.

Lemma declared_height_le (encodeXML : jsstring -> jsstring)
    (userText : jsstring) (width fontSize : Z) (color : string) :
  0 < fontSize <= width ->
  js_le (svgHeight (generateTextSvg encodeXML userText width fontSize color))
    (estimated_height (Z.of_nat (length userText)) width fontSize) = true.
Proof.
  intros Hfs.
  cbv beta iota zeta delta [generateTextSvg estimated_height svgHeight].
  rewrite js_floor_div by lia.
  assert (Hk : 1 <= width / fontSize).
  { apply Z.div_le_lower_bound; lia. }
  rewrite js_ceil_div by lia.
  unfold js_length at 1.
  apply height_monotone; [now apply wrap_lines_count_le|lia].
Qed.

Lemma declared_height_bmp (encodeXML : jsstring -> jsstring)
    (userText : jsstring) (width fontSize : Z) (color : string) :
  0 < fontSize <= width ->
  bmp_only userText = true ->
  svgHeight (generateTextSvg encodeXML userText width fontSize color)
    = estimated_height (Z.of_nat (length userText)) width fontSize.
Proof.
  intros Hfs Hbmp.
  cbv beta iota zeta delta [generateTextSvg estimated_height svgHeight].
  rewrite js_floor_div by lia.
  assert (Hk : 1 <= width / fontSize).
  { apply Z.div_le_lower_bound; lia. }
  rewrite js_ceil_div by lia.
  unfold js_length at 1. rewrite (wrap_lines_count_bmp _ _ Hk Hbmp). reflexivity.
Qed.

(** X4: for a font size that is positive and not larger than the width,
    the height declared by the generated document is at most the height
    the font-size search computed for that size, and it is that height
    when the text has no surrogate pairs. *)
Theorem declared_height_is_estimated_height (encodeXML : jsstring -> jsstring)
    (userText : jsstring) (width fontSize : Z) (color : string) :
  0 < fontSize <= width ->
  js_le (svgHeight (generateTextSvg encodeXML userText width fontSize color))
    (estimated_height (Z.of_nat (length userText)) width fontSize) = true /\
  (bmp_only userText = true ->
   svgHeight (generateTextSvg encodeXML userText width fontSize color)
     = estimated_height (Z.of_nat (length userText)) width fontSize).
Proof.
  intros Hfs. split; [now apply declared_height_le|].
  intros Hbmp. now apply declared_height_bmp.
Qed.

Lemma declared_height_is_estimated_height_witness :
  0 < 120 <= 1611 /\
  js_le (svgHeight (generateTextSvg (fun s => s) [72; 55357; 56832] 1611 120 "#FFFFFF"))
    (estimated_height (Z.of_nat (length [72; 55357; 56832])) 1611 120) = true /\
  (bmp_only [72; 55357; 56832] = true ->
   svgHeight (generateTextSvg (fun s => s) [72; 55357; 56832] 1611 120 "#FFFFFF")
     = estimated_height (Z.of_nat (length [72; 55357; 56832])) 1611 120).
Proof.
  split; [lia|].
  apply (declared_height_is_estimated_height (fun s => s) [72; 55357; 56832] 1611 120
           "#FFFFFF").
  lia.
Defined.



(** Where rounding decides: six characters in a box 56 wide and 420
    high, from size 62.  Size 62 is wider than the box; at 56 the exact
    height is 420, the rounded one is above it and the test fails; the
    search stops at 50.  In a box 28 by 210 from size 34 no candidate
    passes and the size stays 34. *)
Example adjusted_font_size_rounding :
  estimated_height 6 56 56 = num 420 /\
  fits 6 56 420 56 = false /\
  adjusted_font_size [65; 65; 65; 65; 65; 65] 56 420 62 = 50 /\
  adjusted_font_size [65; 65; 65; 65; 65; 65] 28 210 34 = 34.
Proof. repeat split; vm_compute; reflexivity. Qed.



(** ** The declared width *)

Lemma wrap_lines_at_most (k : Z) (userText : jsstring) :
  1 <= k ->
  Forall (fun l : jsstring => 1 <= Z.of_nat (length l) <= k + 1)
    (wrap_lines (num k) userText) /\
  (bmp_only userText = true ->
   Forall (fun l : jsstring => 1 <= Z.of_nat (length l) <= k)
     (wrap_lines (num k) userText)).
Proof.
  intros Hk. rewrite wrap_lines_from. split.
  - destruct (wrap_from_sizes k 2 (string_iterator userText) [] Hk
                (string_iterator_sizes userText) ltac:(simpl; lia)) as [H1 _].
    eapply Forall_impl; [exact H1|]. intros l. cbv beta. simpl. lia.
  - intros Hbmp. rewrite (string_iterator_bmp _ Hbmp).
    assert (Hone : Forall (fun c : jsstring => (1 <= length c <= 1)%nat)
                     (map (fun u => [u]) userText)).
    { apply Forall_singletons. intros u. simpl. lia. }
    destruct (wrap_from_sizes k 1 _ [] Hk Hone ltac:(simpl; lia)) as [H3 _].
    eapply Forall_impl; [exact H3|]. intros l. cbv beta. simpl. lia.
Qed.

Lemma Math_max_lengths (k : Z) (ls : list jsstring) :
  Forall (fun l => Z.of_nat (length l) <= k) ls ->
  Math_max (map js_length ls) = NegInf \/
  exists n, Math_max (map js_length ls) = num n /\ n <= k.
Proof.
  unfold Math_max.
  assert (H : forall acc : jsnum,
             (acc = NegInf \/ exists a, acc = num a /\ a <= k) ->
             Forall (fun l => Z.of_nat (length l) <= k) ls ->
             fold_left js_max2 (map js_length ls) acc = NegInf \/
             exists n, fold_left js_max2 (map js_length ls) acc = num n /\ n <= k).
  { induction ls as [|l ls IH]; intros acc Hacc Hls; simpl; [exact Hacc|].
    inversion Hls as [|? ? Hl Hrest]; subst. apply IH; [|exact Hrest].
    right. destruct Hacc as [->|(a & -> & Ha)].
    - exists (Z.of_nat (length l)). split; [reflexivity|exact Hl].
    - unfold js_length, js_max2, num. cbv iota.
      destruct (js_le (Fin (inject_Z a)) (Fin (inject_Z (Z.of_nat (length l))))).
      + exists (Z.of_nat (length l)). split; [reflexivity|exact Hl].
      + exists a. split; [reflexivity|exact Ha]. }
  intros Hls. apply H; [now left|exact Hls].
Qed.

Lemma declared_width_bound (n fontSize bound : Z) :
  0 < fontSize -> n * fontSize <= bound ->
  js_le (js_add (js_mul (num n) (num fontSize)) (num 4)) (num (bound + 4)) = true.
Proof.
  intros Hfs Hn. unfold js_mul, js_add, js_le, num. apply Qle_bool_iff.
  rewrite !Qred_correct, <- inject_Z_mult, <- inject_Z_plus, <- Zle_Qle. lia.
Qed.

(** X6: for a font size that is positive and not larger than the width,
    the generated document is never declared wider than the width plus
    one font size plus 4, and never wider than the width plus 4 when the
    text has no surrogate pair. *)
Theorem declared_width_within_box (encodeXML : jsstring -> jsstring) (userText : jsstring)
    (width fontSize : Z) (color : string) :
  0 < fontSize <= width ->
  js_le (svgWidth (generateTextSvg encodeXML userText width fontSize color))
    (num (width + fontSize + 4)) = true /\
  (bmp_only userText = true ->
   js_le (svgWidth (generateTextSvg encodeXML userText width fontSize color))
     (num (width + 4)) = true).
Proof.
  intros Hfs.
  cbv beta iota zeta delta [generateTextSvg svgWidth].
  rewrite js_floor_div by lia.
  assert (Hk : 1 <= width / fontSize) by (apply Z.div_le_lower_bound; lia).
  pose proof (Z.mul_div_le width fontSize ltac:(lia)) as Hmul.
  assert (Hneg : js_le (js_add (js_mul NegInf (num fontSize)) (num 4))
                   (num (width + fontSize + 4)) = true /\
                 js_le (js_add (js_mul NegInf (num fontSize)) (num 4))
                   (num (width + 4)) = true).
  { unfold js_mul, num. rewrite positive_compare by lia. split; reflexivity. }
  split.
  - assert (Hls : Forall (fun l : jsstring => Z.of_nat (length l) <= width / fontSize + 1)
                    (wrap_lines (num (width / fontSize)) userText)).
    { eapply Forall_impl; [exact (proj1 (wrap_lines_at_most _ userText Hk))|].
      intros l. cbv beta. lia. }
    destruct (Math_max_lengths _ _ Hls) as [->|(n & -> & Hn)]; [apply Hneg|].
    apply declared_width_bound; [lia|]. nia.
  - intros Hbmp.
    assert (Hls : Forall (fun l : jsstring => Z.of_nat (length l) <= width / fontSize)
                    (wrap_lines (num (width / fontSize)) userText)).
    { eapply Forall_impl; [exact (proj2 (wrap_lines_at_most _ userText Hk) Hbmp)|].
      intros l. cbv beta. lia. }
    destruct (Math_max_lengths _ _ Hls) as [->|(n & -> & Hn)]; [apply Hneg|].
    apply declared_width_bound; [lia|]. nia.
Qed.

Lemma declared_width_within_box_witness :
  0 < 120 <= 1611 /\
  js_le (svgWidth (generateTextSvg (fun s => s) [72; 105] 1611 120 "#FFFFFF"))
    (num (1611 + 120 + 4)) = true /\
  (bmp_only [72; 105] = true ->
   js_le (svgWidth (generateTextSvg (fun s => s) [72; 105] 1611 120 "#FFFFFF"))
     (num (1611 + 4)) = true).
Proof.
  split; [lia|].
  apply (declared_width_within_box (fun s => s) [72; 105] 1611 120 "#FFFFFF"). lia.
Defined.

(** ** A box narrower than the font *)

Lemma wrap_from_nonpositive (k : Z) (chars : list jsstring) (cur : jsstring) :
  k <= 0 -> chars <> [] -> Forall (fun c => c <> []) chars ->
  wrap_from (num k) chars cur = cur :: chars.
Proof.
  intros Hk. revert cur. induction chars as [|c rest IH]; intros cur Hne Hall;
    [congruence|].
  inversion Hall as [|? ? Hc Hrest]; subst.
  rewrite wrap_from_cons, js_ge_length.
  destruct (Z.leb_spec k (Z.of_nat (length cur))) as [_|Hlt]; [|lia].
  f_equal. destruct rest as [|d rest].
  - simpl. now rewrite truthy_string_nonempty.
  - apply IH; [discriminate|exact Hrest].
Qed.

(** X7: when the width is smaller than the (positive) font size, a
    non-empty text is wrapped to an empty first line followed by one line
    for every character. *)
Theorem wrap_in_narrow_box (encodeXML : jsstring -> jsstring) (userText : jsstring)
    (width fontSize : Z) (color : string) :
  0 < fontSize -> width < fontSize -> userText <> [] ->
  wrap_lines (js_floor (js_div (num width) (num fontSize))) userText
    = [] :: string_iterator userText /\
  length (textElements (generateTextSvg encodeXML userText width fontSize color))
    = (2 * S (length (string_iterator userText)))%nat.
Proof.
  intros Hfs Hw Hne.
  assert (Hlines : wrap_lines (js_floor (js_div (num width) (num fontSize))) userText
                   = [] :: string_iterator userText).
  { rewrite js_floor_div by lia. rewrite wrap_lines_from.
    apply wrap_from_nonpositive.
    - assert (width / fontSize < 1) by (apply Z.div_lt_upper_bound; lia). lia.
    - intros E. apply Hne. rewrite <- (string_iterator_concat userText), E. reflexivity.
    - apply string_iterator_nonempty. }
  split; [exact Hlines|].
  transitivity
    (2 * length (wrap_lines (js_floor (js_div (num width) (num fontSize))) userText))%nat.
  - unfold generateTextSvg. simpl. apply concat_imap_pair_length.
  - rewrite Hlines. reflexivity.
Qed.

Lemma wrap_in_narrow_box_witness :
  0 < 120 /\ 100 < 120 /\ ([72; 105] : jsstring) <> [] /\
  wrap_lines (js_floor (js_div (num 100) (num 120))) [72; 105]
    = [] :: string_iterator [72; 105] /\
  length (textElements (generateTextSvg (fun s => s) [72; 105] 100 120 "#FFFFFF"))
    = (2 * S (length (string_iterator [72%Z; 105%Z])))%nat.
Proof.
  split; [lia|]. split; [lia|]. split; [discriminate|].
  apply (wrap_in_narrow_box (fun s => s) [72; 105] 100 120 "#FFFFFF");
    [lia|lia|discriminate].
Defined.

(** ** The font-size search: which candidate is chosen *)

(** X8: the chosen size is the initial size minus a multiple of 6 and,
    for an initial size of 24 or more, not below 24; no candidate above
    it passes the test of the loop, which is the binary64 test of the
    engine; and an initial size below 24 is returned as it is, since
    then no candidate is tested. *)
Theorem adjusted_font_size_is_first_fit (userText : jsstring)
    (boxWidth boxHeight initialFontSize : Z) :
  let len := Z.of_nat (length userText) in
  let chosen := adjusted_font_size userText boxWidth boxHeight initialFontSize in
  (exists k, 0 <= k /\ chosen = initialFontSize - 6 * k) /\
  (24 <= initialFontSize -> 24 <= chosen) /\
  (forall j, 0 <= j -> 24 <= initialFontSize - 6 * j ->
     fits len boxWidth boxHeight (initialFontSize - 6 * j) = true ->
     initialFontSize - 6 * j <= chosen) /\
  (initialFontSize < 24 -> chosen = initialFontSize).
Proof.
  intros len chosen. subst chosen. unfold adjusted_font_size. fold len.
  destruct (font_size_loop_cases len boxWidth boxHeight initialFontSize initialFontSize)
    as [[Hr Hnone]|(k & Hk & Hr & Hge & Hfits & Hfirst)]; rewrite Hr.
  - split; [exists 0; lia|]. split; [tauto|]. split; [|reflexivity].
    intros j Hj Hge Hfit. rewrite Hnone in Hfit by assumption. discriminate.
  - split; [exists k; lia|]. split; [intros _; exact Hge|]. split; [|lia].
    intros j Hj Hgej Hfit. destruct (Z_lt_ge_dec j k) as [Hlt|Hgejk]; [|lia].
    rewrite Hfirst in Hfit by lia. discriminate.
Qed.

(** ** The renderer gate under any behaviour of the backing system *)

Lemma resvg_enter_single_flight (backing : nat -> Backing) (g g' : ResvgGlobal) (e : entry) :
  (forall p o, arrow_promises g !! p = Some (Suspended o) ->
     initializing g = Some p /\ initialized g = false) ->
  (initWasm_calls g <= length (arrow_promises g))%nat ->
  resvg_enter backing g = (e, g') ->
  (forall p o, arrow_promises g' !! p = Some (Suspended o) ->
     initializing g' = Some p /\ initialized g' = false) /\
  (initWasm_calls g' <= length (arrow_promises g'))%nat.
Proof.
  intros Hinv Hcalls. unfold resvg_enter.
  case_eq (initialized g); intros Hi; [intros [= <- <-]; auto|].
  case_eq (initializing g); [intros q Hq [= <- <-]; auto|intros Hq].
  assert (Hnone : forall p o, arrow_promises g !! p = Some (Suspended o) -> False).
  { intros p o Hp. destruct (Hinv p o Hp) as [Hc _]. congruence. }
  unfold arrow_call, catch_clause, push_promise.
  destruct (backing (length (arrow_promises g))) as [err|o];
    [destruct (already_initialized err)|]; intros [= <- <-]; simpl;
    rewrite ?length_app; simpl; (split; [|lia]); intros p o' Hp;
    (destruct (decide (p < length (arrow_promises g))%nat) as [Hlt|Hge];
     [rewrite lookup_app_l in Hp by exact Hlt; destruct (Hnone p o' Hp)|]);
    rewrite lookup_app_r in Hp by lia;
    destruct (p - length (arrow_promises g))%nat as [|d] eqn:Hd;
    simpl in Hp; try discriminate.
  split; [f_equal; lia|exact Hi].
Qed.

Lemma resvg_settle_single_flight (p : nat) (g g' : ResvgGlobal) :
  (forall q o, arrow_promises g !! q = Some (Suspended o) ->
     initializing g = Some q /\ initialized g = false) ->
  (initWasm_calls g <= length (arrow_promises g))%nat ->
  resvg_settle p g = Some g' ->
  (forall q o, arrow_promises g' !! q = Some (Suspended o) ->
     initializing g' = Some q /\ initialized g' = false) /\
  (initWasm_calls g' <= length (arrow_promises g'))%nat.
Proof.
  intros Hinv Hcalls. unfold resvg_settle.
  destruct (arrow_promises g !! p) as [[o| |err]|] eqn:Hp; try discriminate.
  destruct (Hinv p o Hp) as [Hinit _].
  assert (Hgone : forall (pr : promise) q o',
             (forall o'', pr <> Suspended o'') ->
             <[p := pr]> (arrow_promises g) !! q = Some (Suspended o') -> False).
  { intros pr q o' Hpr Hq.
    apply list_lookup_insert_Some in Hq as [(<- & Hq & _)|(Hne & Hq)].
    - exact (Hpr o' Hq).
    - destruct (Hinv q o' Hq) as [Hc _]. congruence. }
  unfold after_initWasm, catch_clause, store_promise.
  destruct o as [err|]; [destruct (already_initialized err)|];
    intros [= <-]; simpl; rewrite length_insert; (split; [|exact Hcalls]);
    intros q o' Hq; exfalso; eapply Hgone; eauto; discriminate.
Qed.

(** X9: whatever the backing system does and however the callers are
    interleaved, at most one initialisation attempt is in flight at any
    time: a suspended attempt is the one [globalState.initializing] holds,
    the gate is not ready while it runs, and [initWasm] has been called at
    most once per attempt. *)
Theorem resvg_single_flight (backing : nat -> Backing) (n : nat) (ts0 ts : list task)
    (g : ResvgGlobal) :
  steps (resvg_enter backing) resvg_settle resvg_resume n (resvg_fresh, ts0) (g, ts) ->
  (forall p q o o',
     arrow_promises g !! p = Some (Suspended o) ->
     arrow_promises g !! q = Some (Suspended o') -> p = q) /\
  (forall p o, arrow_promises g !! p = Some (Suspended o) ->
     initializing g = Some p /\ initialized g = false) /\
  (initWasm_calls g <= length (arrow_promises g))%nat.
Proof.
  intros Hsteps.
  assert (H : (forall p o, arrow_promises g !! p = Some (Suspended o) ->
                 initializing g = Some p /\ initialized g = false) /\
              (initWasm_calls g <= length (arrow_promises g))%nat).
  { remember (resvg_fresh, ts0) as s0 eqn:E0. remember (g, ts) as s eqn:E.
    revert g ts E. induction Hsteps as [s|n s1 s2 s3 H12 IH H23]; intros g ts E.
    - subst. injection E as <- <-. split; [|simpl; lia].
      intros p o Hp. destruct p; discriminate.
    - destruct s2 as [g2 ts2]. destruct (IH E0 g2 ts2 eq_refl) as [I1 I2]. subst.
      inversion H23 as [i g' ts' e g'' Hi He|p g' ts' g'' Hs|i p g' ts' r g'' Hi Hr];
        subst.
      + eapply resvg_enter_single_flight; eauto.
      + eapply resvg_settle_single_flight; eauto.
      + unfold resvg_resume in Hr.
        destruct (arrow_promises g2 !! p) as [[| |]|]; try discriminate;
          injection Hr as <- <-; auto. }
  destruct H as [H1 H2]. split; [|split; assumption].
  intros p q o o' Hp Hq.
  destruct (H1 p o Hp) as [Ep _]. destruct (H1 q o' Hq) as [Eq _]. congruence.
Qed.

Lemma resvg_single_flight_witness :
  let backing := fun _ : nat => InitWasm (Some (Error "out of memory")) in
  let g := mkResvg false (Some 0%nat) [Suspended (Some (Error "out of memory"))] 1 in
  steps (resvg_enter backing) resvg_settle resvg_resume 1
    (resvg_fresh, [NotCalled; NotCalled]) (g, [Awaiting 0; NotCalled]) /\
  (forall p q o o',
     arrow_promises g !! p = Some (Suspended o) ->
     arrow_promises g !! q = Some (Suspended o') -> p = q) /\
  (forall p o, arrow_promises g !! p = Some (Suspended o) ->
     initializing g = Some p /\ initialized g = false) /\
  (initWasm_calls g <= length (arrow_promises g))%nat.
Proof.
  intros backing g.
  assert (H : steps (resvg_enter backing) resvg_settle resvg_resume 1
                (resvg_fresh, [NotCalled; NotCalled]) (g, [Awaiting 0; NotCalled])).
  { apply (steps_S _ _ _ 0 _ (resvg_fresh, [NotCalled; NotCalled])); [apply steps_O|].
    apply (step_enter_to _ _ _ 0%nat _ _ (Await 0)); reflexivity. }
  split; [exact H|].
  exact (resvg_single_flight backing 1 [NotCalled; NotCalled] [Awaiting 0; NotCalled] g H).
Defined.

(** X10: when [initWasm] rejects with another error than "Already
    initialized", the caller gets the error and the gate is reset; the
    next call makes a second attempt and, if that one succeeds, returns
    with the gate ready. *)
Theorem rejected_attempt_is_retried (backing : nat -> Backing) (g : ResvgGlobal)
    (err : JsError) :
  initialized g = false -> initializing g = None ->
  backing (length (arrow_promises g)) = InitWasm (Some err) ->
  already_initialized err = false ->
  backing (S (length (arrow_promises g))) = InitWasm None ->
  exists g1 g2,
    ensureResvgInitialized backing g = (Throw err, g1) /\
    initialized g1 = false /\ initializing g1 = None /\
    ensureResvgInitialized backing g1 = (Ok tt, g2) /\
    initialized g2 = true /\
    initWasm_calls g2 = S (S (initWasm_calls g)).
Proof.
  intros Hi Hp Hb Ha Hb2. eexists _, _.
  split; [now apply ensureResvgInitialized_rejected|].
  split; [reflexivity|]. split; [reflexivity|].
  split.
  - apply ensureResvgInitialized_success; simpl; try reflexivity.
    rewrite length_app. simpl. rewrite Nat.add_1_r. exact Hb2.
  - split; reflexivity.
Qed.

Lemma rejected_attempt_is_retried_witness :
  let backing := fun n : nat =>
    match n with
    | O => InitWasm (Some (Error "CompileError: out of memory"))
    | S _ => InitWasm None
    end in
  exists g1 g2,
    ensureResvgInitialized backing resvg_fresh
      = (Throw (Error "CompileError: out of memory"), g1) /\
    initialized g1 = false /\ initializing g1 = None /\
    ensureResvgInitialized backing g1 = (Ok tt, g2) /\
    initialized g2 = true /\
    initWasm_calls g2 = S (S (initWasm_calls resvg_fresh)).
Proof.
  simpl.
  apply (rejected_attempt_is_retried
           (fun n : nat =>
              match n with
              | O => InitWasm (Some (Error "CompileError: out of memory"))
              | S _ => InitWasm None
              end)
           resvg_fresh (Error "CompileError: out of memory")); reflexivity.
Defined.

(** ** A raster engine that does not start *)

Lemma await_getVips_failed {L : Type} (l : L) (w : World) (err : JsError) :
  vipsInstance (vips w) = false ->
  vipsPromise (vips w) = Suspended (Some err) \/ vipsPromise (vips w) = Rejected err ->
  await_getVips l w =
    (Throw err, l,
     mkWorld (globalState w) (mkVips (Rejected err) false (Vips_calls (vips w)))
       (next_handle w) (events w)).
Proof.
  destruct w as [gs [pr inst calls] n ev]. simpl. intros -> [-> | ->]; reflexivity.
Qed.

(** X11: when the start-up of the raster engine fails, a request for a
    known character throws the start-up error before any image is opened,
    and leaves the engine gate rejected with nothing cached: [Vips] is
    not called again, so every later request fails in the same way. *)
Theorem engine_failure_is_permanent (host : Host) (charaMeta : gmap string CharacterMeta)
    (textConfigs : gmap string (list TextConfig)) (character : string) (userText : jsstring)
    (backgroundIndex emotionIndex : option Z) (w : World) (err : JsError) :
  js_get charaMeta character <> Undefined ->
  (backgroundIndex = None -> exists files, readdirSync host = Ok files) ->
  vipsInstance (vips w) = false ->
  vipsPromise (vips w) = Suspended (Some err) \/ vipsPromise (vips w) = Rejected err ->
  exists w',
    generateTextBoxImage host charaMeta textConfigs character userText
        backgroundIndex emotionIndex tt w
      = (Throw err, tt, w') /\
    events w' = events w /\ next_handle w' = next_handle w /\
    globalState w' = globalState w /\
    vipsInstance (vips w') = false /\ vipsPromise (vips w') = Rejected err /\
    Vips_calls (vips w') = Vips_calls (vips w).
Proof.
  intros Hknown Hdir Hinst Hpr.
  assert (Hbg : exists bgIndex,
             background_or_random host backgroundIndex tt w = (Ok bgIndex, tt, w)).
  { destruct backgroundIndex as [i|]; [exists (Some i); reflexivity|].
    destruct (Hdir eq_refl) as [files Hfiles]. eexists.
    unfold background_or_random, getRandomBackground, bind, of_res, ret.
    rewrite Hfiles. reflexivity. }
  destruct Hbg as [bgIndex Hbg]. eexists.
  split.
  - unfold generateTextBoxImage.
    destruct (js_get charaMeta character) as [|meta|name]; [contradiction| |];
      unfold bind at 1; rewrite Hbg; unfold call, bind at 1, generateBaseImage, bind at 1;
      rewrite (await_getVips_failed _ w err Hinst Hpr); reflexivity.
  - repeat split; reflexivity.
Qed.

Lemma engine_failure_is_permanent_witness :
  let err := Error "no native wasm support" in
  exists w',
    generateTextBoxImage (sample_host rgba_image false) sample_charaMeta sample_textConfigs
        "ema" [72; 105] None None tt (world_loaded (Some err))
      = (Throw err, tt, w') /\
    events w' = events (world_loaded (Some err)) /\
    next_handle w' = next_handle (world_loaded (Some err)) /\
    globalState w' = globalState (world_loaded (Some err)) /\
    vipsInstance (vips w') = false /\ vipsPromise (vips w') = Rejected err /\
    Vips_calls (vips w') = Vips_calls (vips (world_loaded (Some err))).
Proof.
  intros err.
  apply (engine_failure_is_permanent (sample_host rgba_image false) sample_charaMeta
           sample_textConfigs "ema" [72; 105] None None (world_loaded (Some err)) err).
  - vm_compute. discriminate.
  - intros _. eexists. reflexivity.
  - reflexivity.
  - left. reflexivity.
Defined.

(** ** Handles of [generateBaseImage] *)

Lemma acquired_app (h : nat) (d d' : list Event) :
  acquired h (d ++ d') = (acquired h d + acquired h d')%nat.
Proof. unfold acquired. now rewrite List.filter_app, length_app. Qed.

Lemma released_app (h : nat) (d d' : list Event) :
  released h (d ++ d') = (released h d + released h d')%nat.
Proof. unfold released. now rewrite List.filter_app, length_app. Qed.

Lemma accounted_tracked (l : Base.Locals) (w : World) (delta : list Event) :
  accounted l w delta -> tracked l w delta.
Proof. intros H h. destruct (H h) as (H1 & H2 & H3). repeat split; [lia|lia|exact H3]. Qed.

Ltac run_base_in H :=
  cbv beta iota zeta delta
    [bind ret throw try_catch try_finally of_res read assign log alloc deref
     vips_newFromBuffer vips_newFromFile vips_composite2
     vips_writeToBuffer resvg_render await_ensureResvgInitialized
     dispose_if_set dispose_quietly vips_dispose
     Base.init Base.set_bgImage Base.set_charImage Base.set_result Base.bgImage
     Base.charImage Base.result events next_handle globalState vips pixels hid] in H.

Ltac split_base_host H :=
  first
    [ split_all_host H
    | match type of H with
      | context [match newFromFile ?h ?p with _ => _ end] =>
          destruct (newFromFile h p) as [?|?]
      end ].

(** Counting in a log [d] that is followed by known events. *)
Ltac count_handles h d :=
  rewrite ?acquired_app, ?released_app;
  set (created := acquired h d) in *; set (disposed := released h d) in *;
  clearbody created disposed;
  cbv [acquired released List.filter event_eqb length app holds held_by
       Base.result Base.charImage Base.bgImage hid next_handle] in *;
  repeat match goal with
    | |- context [Nat.eqb ?a ?b] => destruct (Nat.eqb_spec a b)
    | H : context [Nat.eqb ?a ?b] |- _ => destruct (Nat.eqb_spec a b)
    end;
  simpl in *; lia.

(** Counting in a known log. *)
Ltac count_known :=
  cbv [acquired released List.filter event_eqb length app holds held_by
       Base.result Base.charImage Base.bgImage Base.init hid next_handle] in *;
  repeat match goal with
    | |- context [Nat.eqb ?a ?b] => destruct (Nat.eqb_spec a b)
    end;
  simpl in *; lia.

(** One turn of the caption loop. *)
Lemma name_caption_handles (host : Host) (fontBuffer : Buffer) (config : TextConfig)
    (l l' : Base.Locals) (w w' : World) (r : res unit) (d : list Event) :
  accounted l w d ->
  name_caption host fontBuffer config l w = (r, l', w') ->
  exists d',
    events w' = events w ++ d' /\
    tracked l' w' (d ++ d') /\
    (r = Ok tt -> accounted l' w' (d ++ d')).
Proof.
  intros Hacc H. unfold name_caption in H.
  destruct (truthy_string (text config)).
  2:{ injection H as <- <- <-. exists []. rewrite !app_nil_r.
      split; [reflexivity|]. split; [now apply accounted_tracked|auto]. }
  destruct l as [b c res]. destruct w as [gs v n ev].
  run_base_in H.
  repeat (split_base_host H; run_base_in H).
  all: try (destruct res as [res|]; run_base_in H).
  all: repeat (split_base_host H; run_base_in H).
  all: injection H as <- <- <-; cbv [events]; rewrite <- ?app_assoc.
  all: (eexists; split; [reflexivity || (rewrite app_nil_r; reflexivity)|]).
  all: split; [|try discriminate; intros _].
  all: intros h; specialize (Hacc h).
  all: count_handles h d.
Qed.

(** The caption loop, for any list of captions. *)
Lemma caption_loop_handles (host : Host) (fontBuffer : Buffer) (configs : list TextConfig) :
  forall (l l' : Base.Locals) (w w' : World) (r : res unit) (d : list Event),
  accounted l w d ->
  for_of configs (name_caption host fontBuffer) l w = (r, l', w') ->
  exists d',
    events w' = events w ++ d' /\
    tracked l' w' (d ++ d') /\
    (r = Ok tt -> accounted l' w' (d ++ d')).
Proof.
  induction configs as [|config rest IH]; intros l l' w w' r d Hacc H.
  - injection H as <- <- <-. exists []. rewrite !app_nil_r.
    split; [reflexivity|]. split; [now apply accounted_tracked|auto].
  - simpl in H. unfold bind in H.
    destruct (name_caption host fontBuffer config l w) as [[[[]|err] l1] w1] eqn:H1;
      destruct (name_caption_handles _ _ _ _ _ _ _ _ d Hacc H1) as (d1 & E1 & T1 & A1).
    + destruct (IH _ _ _ _ _ (d ++ d1) (A1 eq_refl) H) as (d2 & E2 & T2 & A2).
      exists (d1 ++ d2). rewrite E2, E1, <- !app_assoc.
      rewrite <- !app_assoc in T2, A2. auto.
    + injection H as <- <- <-. exists d1. split; [exact E1|].
      split; [exact T1|discriminate].
Qed.

Lemma accounted_world (l : Base.Locals) (w w1 : World) (d : list Event) :
  next_handle w1 = next_handle w -> accounted l w d -> accounted l w1 d.
Proof. intros E H h. rewrite E. apply H. Qed.

Lemma name_captions_handles (host : Host) (charaMeta : gmap string CharacterMeta)
    (textConfigs : gmap string (list TextConfig)) (character : string)
    (l l' : Base.Locals) (w w' : World) (r : res unit) (d : list Event) :
  accounted l w d ->
  name_captions host charaMeta textConfigs character l w = (r, l', w') ->
  exists d',
    events w' = events w ++ d' /\
    tracked l' w' (d ++ d') /\
    (r = Ok tt -> accounted l' w' (d ++ d')).
Proof.
  intros Hacc H. unfold name_captions in H.
  assert (Hstay : forall (r0 : res unit) w0,
            (r0, l, w0) = (r, l', w') -> events w0 = events w ->
            next_handle w0 = next_handle w ->
            exists d',
              events w' = events w ++ d' /\
              tracked l' w' (d ++ d') /\
              (r = Ok tt -> accounted l' w' (d ++ d'))).
  { intros r0 w0 [= <- <- <-] Eev Enh. exists []. rewrite !app_nil_r.
    split; [exact Eev|].
    split; [apply accounted_tracked|intros _]; now apply (accounted_world l w). }
  destruct (js_get textConfigs character) as [|configs|name].
  - now apply (Hstay _ _ H).
  - unfold bind, await_ensureResvgInitialized, of_res in H.
    destruct (ensureResvgInitialized _ _) as [[[]|?] g]; [|now apply (Hstay _ _ H)].
    destruct (readFileSync _ _) as [fontBuffer|?]; [|now apply (Hstay _ _ H)].
    destruct (caption_loop_handles host fontBuffer configs _ _ _ _ _ d
                (accounted_world l w (mkWorld g (vips w) (next_handle w) (events w))
                   d eq_refl Hacc) H) as (d' & E' & T' & A').
    exists d'. auto.
  - unfold bind, await_ensureResvgInitialized, of_res, throw in H.
    destruct (ensureResvgInitialized _ _) as [[[]|?] g]; [|now apply (Hstay _ _ H)].
    destruct (readFileSync _ _) as [fontBuffer|?]; now apply (Hstay _ _ H).
Qed.

(** The [try] block of [generateBaseImage]. *)
Lemma generateBaseImage_try_handles (host : Host) (charaMeta : gmap string CharacterMeta)
    (textConfigs : gmap string (list TextConfig)) (character : string)
    (backgroundIndex emotionIndex : option Z) (l' : Base.Locals) (w w' : World)
    (r : res Buffer) :
  generateBaseImage_try host charaMeta textConfigs character backgroundIndex emotionIndex
      Base.init w = (r, l', w') ->
  exists d,
    events w' = events w ++ d /\
    tracked l' w' d /\
    (forall out, r = Ok out -> accounted l' w' d).
Proof.
  intros H. destruct w as [gs v n ev]. unfold generateBaseImage_try in H.
  run_base_in H.
  repeat (split_base_host H; run_base_in H).
  1: match type of H with
     | context [name_captions ?hh ?cm ?tc ?ch ?l0 ?w0] =>
         match w0 with
         | context [Composite ?x ?y] =>
             destruct (name_captions hh cm tc ch l0 w0) as [[[[]|?] l1] w1] eqn:Hcap;
             apply (name_captions_handles _ _ _ _ _ _ _ _ _
                      [Acquire n; Acquire (S n); Composite x y; Acquire (S (S n))])
               in Hcap;
             [destruct Hcap as (d' & E' & T' & A')| |destruct Hcap as (d' & E' & T' & A')|]
         end
     end.
  - destruct l1 as [b c [res|]]; run_base_in H;
      [destruct (writeToBuffer host (pixels res) ".avif") as [out|?]|];
      injection H as <- <- <-;
      (eexists; split; [rewrite E'; cbv [events]; rewrite <- !app_assoc; reflexivity|]);
      (split; [exact T'|]); intros out' Hout; try discriminate; exact (A' eq_refl).
  - intros h. count_known.
  - run_base_in H. injection H as <- <- <-.
    eexists; split; [rewrite E'; cbv [events]; rewrite <- !app_assoc; reflexivity|].
    split; [exact T'|discriminate].
  - intros h. count_known.
  - injection H as <- <- <-. cbv [events]. rewrite <- ?app_assoc.
    eexists; split; [reflexivity|]. split; [|discriminate].
    intros h. count_known.
  - injection H as <- <- <-. cbv [events]. rewrite <- ?app_assoc.
    eexists; split; [reflexivity|]. split; [|discriminate].
    intros h. count_known.
  - injection H as <- <- <-. cbv [events].
    exists []. split; [now rewrite app_nil_r|]. split; [|discriminate].
    intros h. count_known.
Qed.

Lemma generateBaseImage_finally_releases (host : Host) (l : Base.Locals) (w : World) :
  exists d w',
    generateBaseImage_finally host l w = (Ok tt, l, w') /\
    events w' = events w ++ d /\
    forall h, released h d = holds l h /\ acquired h d = 0%nat.
Proof.
  destruct l as [[[b ?]|] [[c ?]|] [[res ?]|]]; destruct w as [gs v n ev];
    unfold generateBaseImage_finally;
    cbv beta iota zeta delta
      [bind ret throw try_catch read log dispose_if_set dispose_quietly vips_dispose
       Base.bgImage Base.charImage Base.result events next_handle globalState vips hid];
    repeat match goal with
      | |- context [match dispose_fault ?h ?i with _ => _ end] =>
          destruct (dispose_fault h i) as [?|]
      end;
    rewrite <- ?app_assoc;
    (eexists _, _; split; [reflexivity|]);
    (split; [cbv [events]; reflexivity || (rewrite app_nil_r; reflexivity)|]);
    intros h; unfold holds, held_by, acquired, released; simpl;
    repeat match goal with
      | |- context [Nat.eqb ?a ?b] => destruct (Nat.eqb_spec a b)
      end; simpl; split; lia.
Qed.

(** X12: [generateBaseImage] never disposes of an image twice, nor of one
    it did not create, whatever fails on the way and however many name
    captions there are; when it returns the encoded bytes, every image it
    created has been disposed of exactly once. *)
Theorem generateBaseImage_handles (host : Host) (charaMeta : gmap string CharacterMeta)
    (textConfigs : gmap string (list TextConfig)) (character : string)
    (backgroundIndex emotionIndex : option Z) (l' : Base.Locals) (w w' : World)
    (r : res Buffer) :
  generateBaseImage host charaMeta textConfigs character backgroundIndex emotionIndex
      Base.init w = (r, l', w') ->
  exists delta,
    events w' = events w ++ delta /\
    (forall h, (released h delta <= acquired h delta <= 1)%nat) /\
    (forall out, r = Ok out -> forall h, released h delta = acquired h delta).
Proof.
  unfold generateBaseImage. unfold bind at 1.
  destruct (await_getVips Base.init w) as [[[[]|err] l0] w0] eqn:E0;
    destruct (await_getVips_events _ _ _ _ _ E0) as (-> & Eev & Enh).
  2:{ intros [= <- <- <-]. exists []. rewrite app_nil_r. split; [exact Eev|].
      split; [intros h; cbv; lia|discriminate]. }
  unfold try_finally.
  destruct (generateBaseImage_try _ _ _ _ _ _ Base.init w0) as [[r1 l1] w1] eqn:E1.
  destruct (generateBaseImage_try_handles _ _ _ _ _ _ _ _ _ _ E1) as (d1 & Ed1 & T1 & A1).
  destruct (generateBaseImage_finally_releases host l1 w1) as (d2 & w2 & -> & Ed2 & Hd2).
  intros [= <- <- <-]. exists (d1 ++ d2).
  split; [rewrite Ed2, Ed1, Eev, app_assoc; reflexivity|].
  split.
  - intros h. rewrite acquired_app, released_app.
    destruct (Hd2 h) as [-> ->]. destruct (T1 h) as (H1 & H2 & _). lia.
  - intros out -> h. rewrite acquired_app, released_app.
    destruct (Hd2 h) as [-> ->]. destruct (A1 out eq_refl h) as (H1 & _). lia.
Qed.

Lemma generateBaseImage_handles_witness :
  exists l' w' delta,
    generateBaseImage (sample_host rgba_image false) sample_charaMeta sample_textConfigs
        "ema" (Some 1) (Some 1) Base.init (world_loaded None)
      = (Ok avif_bytes, l', w') /\
    events w' = events (world_loaded None) ++ delta /\
    (forall h, (released h delta <= acquired h delta <= 1)%nat) /\
    (forall out, Ok avif_bytes = Ok out -> forall h, released h delta = acquired h delta).
Proof.
  eexists _, _.
  assert (H : generateBaseImage (sample_host rgba_image false) sample_charaMeta
                sample_textConfigs "ema" (Some 1) (Some 1) Base.init (world_loaded None)
              = (Ok avif_bytes, _, _)) by (vm_compute; reflexivity).
  destruct (generateBaseImage_handles _ _ _ _ _ _ _ _ _ _ H) as (delta & E & F & B).
  exists delta. split; [exact H|]. split; [exact E|]. split; [exact F|exact B].
Defined.

(** ** Handles of [drawUserText] *)

Lemma drawUserText_body_handles (host : Host) (baseImage : Buffer) (userText : jsstring)
    (boxRect : (Z * Z) * (Z * Z)) (initialFontSize : Z) (fontPath : path)
    (l' : Draw.Locals) (w w' : World) (r : res Buffer) :
  try_finally
    (try_catch (drawUserText_try host baseImage userText boxRect initialFontSize fontPath)
       (fun _ => ret baseImage))
    (drawUserText_finally host) Draw.init w = (r, l', w') ->
  exists delta,
    events w' = events w ++ delta /\
    (forall h, (released h delta <= acquired h delta <= 1)%nat) /\
    ((forall b img, newFromBuffer host b = Ok img -> hasAlpha img = true) ->
     forall h, released h delta = acquired h delta).
Proof.
  intros H. destruct boxRect as [[x1 y1] [x2 y2]]. destruct w as [gs v n ev].
  unfold drawUserText_try in H. run_all_in H.
  repeat (split_all_host H; run_all_in H).
  all: injection H as <- <- <-; cbv [events]; rewrite <- ?app_assoc.
  all: (eexists; split; [reflexivity || (rewrite app_nil_r; reflexivity)|]).
  all: split; [intros h|intros Hall h].
  all: try match goal with
    | Hall : forall b img, newFromBuffer _ b = Ok img -> hasAlpha img = true,
      Hd : newFromBuffer _ _ = Ok ?i, Ha : hasAlpha ?i = false |- _ =>
        rewrite (Hall _ _ Hd) in Ha; discriminate
    end.
  all: cbv [acquired released List.filter event_eqb length app].
  all: repeat match goal with
    | |- context [Nat.eqb ?a ?b] => destruct (Nat.eqb_spec a b)
    end; simpl; lia.
Qed.

(** X13: [drawUserText] never disposes of an image twice, nor of one it
    did not create, on any path; and when every image the engine decodes
    has an alpha channel, so that nothing is widened, every image created
    is disposed of exactly once, also when the caption stage fails and
    the base image is returned. *)
Theorem drawUserText_handles (host : Host) (baseImage : Buffer) (userText : jsstring)
    (boxRect : (Z * Z) * (Z * Z)) (initialFontSize : Z) (fontPath : path)
    (l' : Draw.Locals) (w w' : World) (r : res Buffer) :
  drawUserText host baseImage userText boxRect initialFontSize fontPath Draw.init w
    = (r, l', w') ->
  exists delta,
    events w' = events w ++ delta /\
    (forall h, (released h delta <= acquired h delta <= 1)%nat) /\
    ((forall b img, newFromBuffer host b = Ok img -> hasAlpha img = true) ->
     forall h, released h delta = acquired h delta).
Proof.
  unfold drawUserText. unfold bind at 1.
  destruct (await_getVips Draw.init w) as [[[[]|err] l0] w0] eqn:E0;
    destruct (await_getVips_events _ _ _ _ _ E0) as (-> & Eev & _).
  - intros H. destruct (drawUserText_body_handles _ _ _ _ _ _ _ _ _ _ H) as (d & E & F & B).
    exists d. rewrite <- Eev. auto.
  - intros [= <- <- <-]. exists []. rewrite app_nil_r. split; [exact Eev|].
    split; [intros h; cbv; lia|intros _ h; reflexivity].
Qed.

Lemma drawUserText_handles_witness :
  exists l' w' delta,
    drawUserText (sample_host rgba_image false) base_bytes [72; 105] USER_TEXT_BOX_RECT
        USER_TEXT_FONT_SIZE (FontFile "font3.ttf") Draw.init (world_loaded None)
      = (Ok avif_bytes, l', w') /\
    events w' = events (world_loaded None) ++ delta /\
    (forall h, (released h delta <= acquired h delta <= 1)%nat) /\
    (forall h, released h delta = acquired h delta).
Proof.
  eexists _, _.
  assert (H : drawUserText (sample_host rgba_image false) base_bytes [72; 105]
                USER_TEXT_BOX_RECT USER_TEXT_FONT_SIZE (FontFile "font3.ttf") Draw.init
                (world_loaded None)
              = (Ok avif_bytes, _, _)) by (vm_compute; reflexivity).
  destruct (drawUserText_handles _ _ _ _ _ _ _ _ _ _ H) as (delta & E & F & B).
  exists delta. split; [exact H|]. split; [exact E|]. split; [exact F|].
  apply B. intros b img. cbv [sample_host newFromBuffer].
  destruct (decide (b = png_bytes)); intros [= <-]; reflexivity.
Defined.

(** ** How often [generateBaseImage] composes *)






(** ** Random defaults *)

Lemma one_to_spec (n i : Z) : In i (one_to n) <-> 1 <= i <= n.
Proof.
  unfold one_to. rewrite in_map_iff. split.
  - intros (k & <- & Hk). apply in_seq in Hk. lia.
  - intros Hi. exists (Z.to_nat (i - 1)). split; [lia|]. apply in_seq. lia.
Qed.

Lemma one_to_length (n : Z) : length (one_to n) = Z.to_nat n.
Proof. unfold one_to. now rewrite length_map, length_seq. Qed.

(** The first element of a shuffled list, when the shuffle permutes. *)
Lemma head_shuffled (shuffle : list Z -> list Z) (xs : list Z) :
  (forall l, Permutation (shuffle l) l) ->
  match head (shuffle xs) with
  | Some i => In i xs
  | None => xs = []
  end.
Proof.
  intros Hperm. specialize (Hperm xs).
  destruct (shuffle xs) as [|i rest]; simpl.
  - now apply Permutation_nil in Hperm.
  - eapply Permutation_in; [exact Hperm|]. now left.
Qed.

(** X15: when the shuffle permutes its argument, the emotion drawn for a
    character of the table is one of 1 .. [emotion_count]; with a count
    of zero or less nothing is drawn and the index is [undefined]. *)
Theorem getRandomEmotion_in_range (host : Host) (charaMeta : gmap string CharacterMeta)
    (character : string) (meta : CharacterMeta) :
  (forall l, Permutation (shuffleArray host l) l) ->
  js_get charaMeta character = Own meta ->
  match getRandomEmotion host charaMeta character with
  | Some i => 1 <= i <= emotion_count meta
  | None => emotion_count meta <= 0
  end.
Proof.
  intros Hperm Hown. unfold getRandomEmotion. rewrite Hown.
  pose proof (head_shuffled (shuffleArray host) (one_to (emotion_count meta)) Hperm) as H.
  destruct (head (shuffleArray host (one_to (emotion_count meta)))) as [i|].
  - now apply one_to_spec.
  - apply (f_equal (@length Z)) in H. rewrite one_to_length in H. simpl in H. lia.
Qed.

Lemma getRandomEmotion_in_range_witness :
  (forall l, Permutation (shuffleArray (sample_host rgba_image false) l) l) /\
  js_get sample_charaMeta "ema" = Own (mkMeta "Ema" 8 "font1.ttf") /\
  match getRandomEmotion (sample_host rgba_image false) sample_charaMeta "ema" with
  | Some i => 1 <= i <= emotion_count (mkMeta "Ema" 8 "font1.ttf")
  | None => emotion_count (mkMeta "Ema" 8 "font1.ttf") <= 0
  end.
Proof.
  assert (Hperm : forall l, Permutation (shuffleArray (sample_host rgba_image false) l) l)
    by (intros l; apply Permutation_refl).
  assert (Hown : js_get sample_charaMeta "ema" = Own (mkMeta "Ema" 8 "font1.ttf"))
    by (vm_compute; reflexivity).
  split; [exact Hperm|]. split; [exact Hown|].
  exact (getRandomEmotion_in_range (sample_host rgba_image false) sample_charaMeta "ema"
           (mkMeta "Ema" 8 "font1.ttf") Hperm Hown).
Defined.

(** X16: when the shuffle permutes its argument, the background drawn is
    a number from 1 to the number of directory entries that start with
    "c" and end with ".avif", whatever digits the file names carry; with
    no such entry the index is [undefined].  The directory listing is the
    only thing read, and nothing is changed. *)
Theorem getRandomBackground_in_range {L : Type} (host : Host) (files : list string)
    (l : L) (w : World) :
  (forall xs, Permutation (shuffleArray host xs) xs) ->
  readdirSync host = Ok files ->
  let count :=
    length (List.filter (fun f => String.prefix "c" f && ends_with f ".avif") files) in
  exists index,
    getRandomBackground host l w = (Ok index, l, w) /\
    match index with
    | Some i => 1 <= i <= Z.of_nat count
    | None => count = 0%nat
    end.
Proof.
  intros Hperm Hdir count. unfold getRandomBackground, bind, of_res, ret.
  rewrite Hdir. fold count. eexists. split; [reflexivity|].
  pose proof (head_shuffled (shuffleArray host) (one_to (Z.of_nat count)) Hperm) as H.
  destruct (head (shuffleArray host (one_to (Z.of_nat count)))) as [i|].
  - now apply one_to_spec.
  - apply (f_equal (@length Z)) in H. rewrite one_to_length in H. simpl in H. lia.
Qed.

Lemma getRandomBackground_in_range_witness :
  (forall xs, Permutation (shuffleArray (sample_host rgba_image false) xs) xs) /\
  readdirSync (sample_host rgba_image false) = Ok ["c1.avif"; "c2.avif"]%string /\
  exists index,
    getRandomBackground (sample_host rgba_image false) tt (world_loaded None)
      = (Ok index, tt, world_loaded None) /\
    match index with
    | Some i =>
        1 <= i <=
        Z.of_nat (length (List.filter
                            (fun f => String.prefix "c" f && ends_with f ".avif")
                            ["c1.avif"; "c2.avif"]%string))
    | None =>
        length (List.filter (fun f => String.prefix "c" f && ends_with f ".avif")
                  ["c1.avif"; "c2.avif"]%string) = 0%nat
    end.
Proof.
  assert (Hperm : forall xs, Permutation (shuffleArray (sample_host rgba_image false) xs) xs)
    by (intros xs; apply Permutation_refl).
  split; [exact Hperm|]. split; [reflexivity|].
  exact (getRandomBackground_in_range (sample_host rgba_image false)
           ["c1.avif"; "c2.avif"]%string tt (world_loaded None) Hperm eq_refl).
Defined.

(** ** The character list *)

Lemma js_get_own {V : Type} (o : gmap string V) (key : string) (v : V) :
  js_get o key = Own v <-> o !! key = Some v.
Proof.
  unfold js_get. destruct (o !! key) as [v'|].
  - split; intros [= ->]; reflexivity.
  - destruct (bool_decide (key ∈ Object_prototype)); split; discriminate.
Qed.

(** X17: the characters that [getAvailableCharacters] lists are the own
    properties of the table, each once and with its [full_name], in the
    order in which [Object.entries] gives them; a name that the table
    only inherits from [Object.prototype] is not listed. *)
Theorem getAvailableCharacters_lists_own_properties
    (charaMeta : gmap string CharacterMeta) (entries : list (string * CharacterMeta)) :
  own_entries charaMeta entries ->
  (forall info : Info.t,
     In info (getAvailableCharacters entries) <->
     exists meta,
       js_get charaMeta (Info.id info) = Own meta /\ Info.name info = full_name meta) /\
  map Info.id (getAvailableCharacters entries) = map fst entries /\
  NoDup (map Info.id (getAvailableCharacters entries)) /\
  length (getAvailableCharacters entries) = size charaMeta.
Proof.
  unfold own_entries, getAvailableCharacters. intros Hentries.
  split; [|split; [|split]].
  - intros [i n]. simpl. rewrite in_map_iff. split.
    + intros ([k meta] & [= <- <-] & Hin). exists meta.
      split; [|reflexivity]. apply js_get_own.
      apply elem_of_map_to_list. rewrite <- Hentries. now apply list_elem_of_In.
    + intros (meta & Hown & ->). exists (i, meta). split; [reflexivity|].
      apply list_elem_of_In. rewrite Hentries.
      apply elem_of_map_to_list. now apply js_get_own.
  - rewrite map_map. reflexivity.
  - rewrite map_map. simpl. change (NoDup (entries.*1)). rewrite Hentries.
    apply (NoDup_fst_map_to_list charaMeta).
  - rewrite length_map, Hentries. apply length_map_to_list.
Qed.

Lemma getAvailableCharacters_lists_own_properties_witness :
  let hiro := mkMeta "Hiro" 6 "font2.ttf" in
  let ema := mkMeta "Ema" 8 "font1.ttf" in
  let charaMeta : gmap string CharacterMeta :=
    <[ "ema"%string := ema ]> (<[ "hiro"%string := hiro ]> ∅) in
  let entries := [("hiro"%string, hiro); ("ema"%string, ema)] in
  own_entries charaMeta entries /\
  getAvailableCharacters entries = [Info.mk "hiro" "Hiro"; Info.mk "ema" "Ema"] /\
  (forall info : Info.t,
     In info (getAvailableCharacters entries) <->
     exists meta,
       js_get charaMeta (Info.id info) = Own meta /\ Info.name info = full_name meta) /\
  map Info.id (getAvailableCharacters entries) = map fst entries /\
  NoDup (map Info.id (getAvailableCharacters entries)) /\
  length (getAvailableCharacters entries) = size charaMeta.
Proof.
  intros hiro ema charaMeta entries.
  assert (H : own_entries charaMeta entries).
  { unfold own_entries, charaMeta, entries.
    rewrite map_to_list_insert by reflexivity.
    rewrite map_to_list_insert by reflexivity.
    rewrite map_to_list_empty. apply perm_swap. }
  split; [exact H|]. split; [reflexivity|].
  exact (getAvailableCharacters_lists_own_properties charaMeta entries H).
Defined.

(** ** Blank texts *)

Lemma trim_start_nil (s : jsstring) :
  trim_start s = [] <-> forallb is_js_whitespace s = true.
Proof.
  induction s as [|u rest IH]; simpl; [tauto|].
  destruct (is_js_whitespace u); simpl; [exact IH|].
  split; discriminate.
Qed.

Lemma forallb_rev {A : Type} (p : A -> bool) (s : list A) :
  forallb p (rev s) = forallb p s.
Proof.
  induction s as [|u rest IH]; [reflexivity|].
  simpl. rewrite forallb_app, IH. simpl. rewrite andb_true_r. apply andb_comm.
Qed.

Lemma trim_end_nil (s : jsstring) :
  trim_end s = [] <-> forallb is_js_whitespace s = true.
Proof.
  unfold trim_end. rewrite <- (forallb_rev _ s), <- trim_start_nil.
  split; [|intros ->; reflexivity].
  intros H. apply (f_equal (@rev Z)) in H. now rewrite rev_involutive in H.
Qed.

Lemma trim_start_all_whitespace (s : jsstring) :
  forallb is_js_whitespace (trim_start s) = forallb is_js_whitespace s.
Proof.
  induction s as [|u rest IH]; [reflexivity|].
  simpl. destruct (is_js_whitespace u) eqn:E; simpl; [exact IH|].
  now rewrite E.
Qed.

Lemma js_trim_nil (s : jsstring) :
  js_trim s = [] <-> forallb is_js_whitespace s = true.
Proof.
  unfold js_trim. now rewrite trim_end_nil, trim_start_all_whitespace.
Qed.

Lemma blank_spec (s : jsstring) :
  blank (Some s) = forallb is_js_whitespace s.
Proof.
  unfold blank. destruct (forallb is_js_whitespace s) eqn:E.
  - apply js_trim_nil in E. rewrite E. simpl. apply orb_true_r.
  - assert (Ht : js_trim s <> []) by (rewrite js_trim_nil, E; discriminate).
    destruct s as [|u rest]; [discriminate|].
    destruct (js_trim (u :: rest)); [contradiction|reflexivity].
Qed.

(** X18: a text that is empty or made of white space and line
    terminators only is refused at both entries before anything is read
    or drawn: the command replies with its prompt and the service throws,
    and the world is as it was. *)
Theorem blank_text_is_refused (host : Host) (charaMeta : gmap string CharacterMeta)
    (textConfigs : gmap string (list TextConfig)) (defaultCharacter character : string)
    (session_send : Buffer -> res unit) (options : Options.t) (s : jsstring) (w : World) :
  forallb is_js_whitespace s = true ->
  Options.text options = Some s ->
  mtb_action host charaMeta textConfigs session_send character (Some s) tt w
    = (Ok (Some "请输入要生成的文本内容"%string), tt, w) /\
  generateImage host charaMeta textConfigs defaultCharacter options tt w
    = (Throw (Error "文本内容不能为空"), tt, w).
Proof.
  intros Hws Htext. unfold mtb_action, generateImage.
  rewrite Htext, blank_spec, Hws. split; reflexivity.
Qed.

Lemma blank_text_is_refused_witness :
  let s : jsstring := [32; 12288; 10] in
  forallb is_js_whitespace s = true /\
  Options.text (Options.mk None (Some s) None None) = Some s /\
  mtb_action (sample_host rgba_image false) sample_charaMeta sample_textConfigs
      (fun _ => Ok tt) "ema" (Some s) tt (world_loaded None)
    = (Ok (Some "请输入要生成的文本内容"%string), tt, world_loaded None) /\
  generateImage (sample_host rgba_image false) sample_charaMeta sample_textConfigs "ema"
      (Options.mk None (Some s) None None) tt (world_loaded None)
    = (Throw (Error "文本内容不能为空"), tt, world_loaded None).
Proof.
  intros s. split; [reflexivity|]. split; [reflexivity|].
  apply (blank_text_is_refused (sample_host rgba_image false) sample_charaMeta
           sample_textConfigs "ema" "ema" (fun _ => Ok tt)
           (Options.mk None (Some s) None None) s (world_loaded None));
    reflexivity.
Defined.

(** X19: for a text with a character that is no white space the service
    adds nothing to [generateTextBoxImage]: the text is passed on as it
    is, not trimmed, the character is the one asked for or else the
    configured default, and the result, error and world are the same. *)
Theorem generateImage_passes_on (host : Host) (charaMeta : gmap string CharacterMeta)
    (textConfigs : gmap string (list TextConfig)) (defaultCharacter : string)
    (options : Options.t) (s : jsstring) (w : World) :
  forallb is_js_whitespace s = false ->
  Options.text options = Some s ->
  generateImage host charaMeta textConfigs defaultCharacter options tt w
    = generateTextBoxImage host charaMeta textConfigs
        (default defaultCharacter (Options.character options)) s
        (Options.backgroundIndex options) (Options.emotionIndex options) tt w.
Proof.
  intros Hws Htext. unfold generateImage. rewrite Htext, blank_spec, Hws.
  unfold try_catch, throw.
  destruct (generateTextBoxImage _ _ _ _ _ _ _ tt w) as [[[out|err] l] w']; reflexivity.
Qed.

Lemma generateImage_passes_on_witness :
  let s : jsstring := [32; 72; 105; 32] in
  let options := Options.mk None (Some s) (Some 1) (Some 1) in
  forallb is_js_whitespace s = false /\
  Options.text options = Some s /\
  generateImage (sample_host rgba_image false) sample_charaMeta sample_textConfigs "ema"
      options tt (world_loaded None)
    = generateTextBoxImage (sample_host rgba_image false) sample_charaMeta
        sample_textConfigs "ema" s (Some 1) (Some 1) tt (world_loaded None).
Proof.
  intros s options. split; [reflexivity|]. split; [reflexivity|].
  apply (generateImage_passes_on (sample_host rgba_image false) sample_charaMeta
           sample_textConfigs "ema" options s (world_loaded None)); reflexivity.
Defined.

(** X20: the action of [mtb] never throws; it returns without a reply
    only when the image was made and [session.send] took it, and every
    error of the pipeline or of the sending is turned into the reply
    that carries its message. *)
Theorem mtb_action_replies (host : Host) (charaMeta : gmap string CharacterMeta)
    (textConfigs : gmap string (list TextConfig)) (session_send : Buffer -> res unit)
    (character : string) (userText : option jsstring) (w : World) :
  exists reply w',
    mtb_action host charaMeta textConfigs session_send character userText tt w
      = (Ok reply, tt, w') /\
    (reply = None ->
     exists s imageBuffer,
       userText = Some s /\ blank userText = false /\
       generateTextBoxImage host charaMeta textConfigs character s None None tt w
         = (Ok imageBuffer, tt, w') /\
       session_send imageBuffer = Ok tt) /\
    (forall s err,
       userText = Some s -> blank userText = false ->
       generateTextBoxImage host charaMeta textConfigs character s None None tt w
         = (Throw err, tt, w') ->
       reply = Some ("生成图片失败: " ++ message err)%string).
Proof.
  unfold mtb_action. destruct userText as [s|].
  2:{ eexists _, _. split; [reflexivity|]. split; [discriminate|]. discriminate. }
  destruct (blank (Some s)) eqn:Hb.
  { eexists _, _. split; [reflexivity|]. split; [discriminate|]. discriminate. }
  unfold try_catch, bind, of_res, ret.
  destruct (generateTextBoxImage _ _ _ _ _ _ _ tt w) as [[[imageBuffer|err] []] w'] eqn:E.
  - destruct (session_send imageBuffer) as [[]|err] eqn:Es.
    + exists None, w'. split; [reflexivity|]. split.
      * intros _. exists s, imageBuffer. repeat split; assumption || reflexivity.
      * intros s' err' [= <-] _ H. congruence.
    + eexists _, w'. split; [reflexivity|]. split; [discriminate|].
      intros s' err' [= <-] _ H. congruence.
  - eexists _, w'. split; [reflexivity|]. split; [discriminate|].
    intros s' err' [= <-] _ H. congruence.
Qed.

(** ** A start without the character file *)

(** X21: when chara_meta.yml cannot be read or parsed, or is an empty
    document, [initAssets] returns all the same and leaves the module
    that was just loaded with empty tables, text_configs.yml not being
    looked at; [mtb.list] then answers that there is no character, and
    [mtb] answers every text that is not blank, for every character that
    is no member of [Object.prototype], with the unknown-character
    message, the world being untouched. *)
Theorem start_without_character_file (path_join : string -> string -> string)
    (loadYaml : string -> res yaml_doc) (basePath : string) :
  (forall data,
     loadYaml (path_join (path_join basePath "config") "chara_meta.yml") = Ok data ->
     data = YamlNullish) ->
  let a := initAssets path_join loadYaml basePath Assets.loaded in
  Assets.assetsPath a = Some (path_join basePath "assets") /\
  Assets.charaMeta a = ∅ /\
  Assets.textConfigs a = ∅ /\
  (forall entries, own_entries (Assets.charaMeta a) entries ->
     getAvailableCharacters entries = [] /\
     mtb_list_action entries = "暂无可用角色"%string) /\
  forall (host : Host) (session_send : Buffer -> res unit) (character : string)
         (s : jsstring) (w : World),
    forallb is_js_whitespace s = false ->
    character ∉ Object_prototype ->
    mtb_action host (Assets.charaMeta a) (Assets.textConfigs a) session_send character
        (Some s) tt w
      = (Ok (Some ("生成图片失败: Unknown character: " ++ character)%string), tt, w).
Proof.
  intros Hload a.
  assert (Ha : a = Assets.mk (Some (path_join basePath "assets")) ∅ ∅).
  { subst a. unfold initAssets, initAssets_try. simpl.
    destruct (loadYaml (path_join (path_join basePath "config") "chara_meta.yml"))
      as [data|err] eqn:E; [|reflexivity].
    rewrite (Hload data eq_refl). reflexivity. }
  rewrite Ha.
  split; [reflexivity|]. split; [reflexivity|]. split; [reflexivity|].
  split.
  { intros entries Hentries. unfold own_entries in Hentries. simpl in Hentries.
    rewrite map_to_list_empty in Hentries. apply Permutation_nil_r in Hentries.
    subst entries. split; reflexivity. }
  intros host session_send character s w Hws Hproto.
  cbn [Assets.charaMeta Assets.textConfigs]. unfold mtb_action. rewrite blank_spec, Hws. unfold try_catch, bind.
  rewrite generateTextBoxImage_unknown by (apply lookup_empty || exact Hproto).
  reflexivity.
Qed.

Lemma start_without_character_file_witness :
  let path_join := fun a b : string => (a ++ "/" ++ b)%string in
  let loadYaml := fun _ : string =>
    Throw (A := yaml_doc) (Error "ENOENT: no such file or directory") in
  let a := initAssets path_join loadYaml "/plugin" Assets.loaded in
  (forall data,
     loadYaml (path_join (path_join "/plugin" "config") "chara_meta.yml") = Ok data ->
     data = YamlNullish) /\
  Assets.assetsPath a = Some "/plugin/assets"%string /\
  Assets.charaMeta a = ∅ /\
  Assets.textConfigs a = ∅ /\
  (forall entries, own_entries (Assets.charaMeta a) entries ->
     getAvailableCharacters entries = [] /\
     mtb_list_action entries = "暂无可用角色"%string) /\
  forall (host : Host) (session_send : Buffer -> res unit) (character : string)
         (s : jsstring) (w : World),
    forallb is_js_whitespace s = false ->
    character ∉ Object_prototype ->
    mtb_action host (Assets.charaMeta a) (Assets.textConfigs a) session_send character
        (Some s) tt w
      = (Ok (Some ("生成图片失败: Unknown character: " ++ character)%string), tt, w).
Proof.
  intros path_join loadYaml a.
  assert (Hload : forall data,
            loadYaml (path_join (path_join "/plugin" "config") "chara_meta.yml") = Ok data ->
            data = YamlNullish) by (intros data; discriminate).
  split; [exact Hload|].
  exact (start_without_character_file path_join loadYaml "/plugin" Hload).
Defined.

(** ** Concurrent callers of an engine that does not start *)

Lemma vips_failed_inv_step (err : JsError) (s s' : VipsGlobal * list task) :
  vips_failed_inv err s ->
  step vips_enter vips_settle vips_resume s s' ->
  vips_failed_inv err s' /\ (vips_measure s' < vips_measure s)%nat.
Proof.
  intros Hinv Hstep. unfold vips_failed_inv, vips_measure in *.
  inversion Hstep as [i g ts e g' Hi He|p g ts g' Hs|i p g ts r g' Hi Hr]; subst;
    simpl in *.
  - pose proof (tasks_weight_insert ts i NotCalled (task_of_entry e) Hi) as Hw.
    destruct Hinv as [[-> Hts]|[-> Hts]];
      unfold vips_enter in He; simpl in He; injection He as <- <-; simpl in *;
      (split; [|lia]).
    + left. split; [reflexivity|]. apply Forall_insert; [assumption|now right].
    + right. split; [reflexivity|]. apply Forall_insert; [assumption|now right; left].
  - destruct Hinv as [[-> Hts]|[-> Hts]];
      unfold vips_settle in Hs; simpl in Hs; destruct p; try discriminate.
    injection Hs as <-. simpl. split; [|lia]. right. split; [reflexivity|].
    eapply Forall_impl; [exact Hts|]. intros t [-> | ->]; auto.
  - pose proof (tasks_weight_insert ts i (Awaiting p) (task_of_res r) Hi) as Hw.
    destruct Hinv as [[-> Hts]|[-> Hts]].
    + destruct (Forall_lookup_1 _ _ _ _ Hts Hi) as [Ht|Ht]; [discriminate|].
      injection Ht as ->. unfold vips_resume in Hr. simpl in Hr. discriminate.
    + destruct (Forall_lookup_1 _ _ _ _ Hts Hi) as [Ht|[Ht|Ht]]; try discriminate.
      injection Ht as ->. unfold vips_resume in Hr. simpl in Hr.
      injection Hr as <- <-. simpl in *. split; [|lia].
      right. split; [reflexivity|].
      apply Forall_insert; [assumption|now right; right].
Qed.

Lemma all_threw (err : JsError) (ts : list task) :
  Forall (fun t => t = NotCalled \/ t = Awaiting 0 \/ t = Threw err) ts ->
  Forall (fun t => t <> NotCalled) ts ->
  (forall i, ts !! i = Some (Awaiting 0) -> False) ->
  ts = replicate (length ts) (Threw err).
Proof.
  intros H1 H2 H3. symmetry. apply replicate_as_Forall. split; [reflexivity|].
  apply Forall_lookup. intros i t Hi.
  destruct (Forall_lookup_1 _ _ _ _ H1 Hi) as [-> | [-> | ->]].
  - now destruct (Forall_lookup_1 _ _ _ _ H2 Hi).
  - destruct (H3 i Hi).
  - reflexivity.
Qed.

(** X22: N callers arrive at the engine gate and the start-up fails with
    [err].  In every state of every interleaving [Vips] was called once,
    no engine is cached and no caller has returned; no execution is
    longer than 3N + 1 segments; and when nothing is left to run the
    promise is rejected and all N callers have thrown [err]. *)
Theorem engine_failure_reaches_every_caller (N n : nat) (err : JsError)
    (v : VipsGlobal) (vs : list task) :
  steps vips_enter vips_settle vips_resume n
    (vips_loaded (Some err), replicate N NotCalled) (v, vs) ->
  Vips_calls v = 1%nat /\
  vipsInstance v = false /\
  Forall (fun t => t = NotCalled \/ t = Awaiting 0 \/ t = Threw err) vs /\
  (n <= 3 * N + 1)%nat /\
  (quiescent vips_enter vips_settle vips_resume (v, vs) ->
   vipsPromise v = Rejected err /\ vs = replicate N (Threw err)).
Proof.
  intros Hsteps.
  assert (Hinit : vips_failed_inv err (vips_loaded (Some err), replicate N NotCalled)).
  { left. split; [reflexivity|]. apply Forall_replicate. now left. }
  destruct (steps_invariant vips_enter vips_settle vips_resume (vips_failed_inv err)
              vips_measure (vips_failed_inv_step err) n _ _ Hinit Hsteps)
    as (Hinv & Hm & Hl).
  unfold vips_measure in Hm. simpl in Hm, Hl.
  rewrite tasks_weight_replicate in Hm. rewrite length_replicate in Hl.
  unfold vips_failed_inv in Hinv. simpl in Hinv.
  split; [|split; [|split; [|split; [lia|]]]].
  - destruct Hinv as [[-> _]|[-> _]]; reflexivity.
  - destruct Hinv as [[-> _]|[-> _]]; reflexivity.
  - destruct Hinv as [[_ Hts]|[_ Hts]];
      (eapply Forall_impl; [exact Hts|]); intros t; cbv beta; tauto.
  - intros Hq.
    pose proof (quiescent_all_called _ _ _ _ _ Hq) as Hcalled.
    destruct Hinv as [[-> Hts]|[-> Hts]].
    + exfalso. eapply Hq. eapply (step_settle _ _ _ 0%nat). reflexivity.
    + split; [reflexivity|].
      rewrite <- Hl. apply all_threw; try assumption.
      intros i Hi.
      eapply Hq. eapply (step_resume _ _ _ i 0%nat); [exact Hi|reflexivity].
Qed.

Lemma engine_failure_reaches_every_caller_witness :
  let err := Error "no native wasm support" in
  let v := mkVips (Rejected err) false 1 in
  steps vips_enter vips_settle vips_resume 3
    (vips_loaded (Some err), replicate 1 NotCalled) (v, [Threw err]) /\
  Vips_calls v = 1%nat /\
  vipsInstance v = false /\
  Forall (fun t => t = NotCalled \/ t = Awaiting 0 \/ t = Threw err) [Threw err] /\
  (3 <= 3 * 1 + 1)%nat /\
  (quiescent vips_enter vips_settle vips_resume (v, [Threw err]) ->
   vipsPromise v = Rejected err /\ [Threw err] = replicate 1 (Threw err)).
Proof.
  intros err v.
  assert (H : steps vips_enter vips_settle vips_resume 3
                (vips_loaded (Some err), replicate 1 NotCalled) (v, [Threw err])).
  { apply (steps_S _ _ _ 2 _ (v, [Awaiting 0])).
    - apply (steps_S _ _ _ 1 _ (vips_loaded (Some err), [Awaiting 0])).
      + apply (steps_S _ _ _ 0 _ (vips_loaded (Some err), [NotCalled])); [apply steps_O|].
        apply (step_enter_to _ _ _ 0%nat _ _ (Await 0)); reflexivity.
      + apply (step_settle _ _ _ 0%nat). reflexivity.
    - apply (step_resume_to _ _ _ 0%nat 0%nat _ _ (Throw err)); reflexivity. }
  split; [exact H|].
  exact (engine_failure_reaches_every_caller 1 3 err v [Threw err] H).
Defined.
